(** * useRealtimeProgress: the aggregation fold and the reconciliation loop

    A shallow embedding of [src/hooks/useRealtimeProgress.ts].

    - Part I embeds the pure part of [fetchProgress]: the [reduce] that keeps
      one row per agent ([latestProgressByAgent]) and the [map] that turns the
      kept rows into [AgentProgress] values ([mappedProgress]).
    - Part II embeds the hook itself as a small-step machine: the effect body,
      its cleanup, the two halves of [fetchProgress] around the [await], the
      change-feed handlers, the 100ms timers and the 3s polling interval.
    - Part III embeds what the two callers of the hook,
      [components/ProgressTracker.tsx] and [pages/Dashboard.tsx], make of its
      result.

    The object model.  The accumulator of the [reduce] is a plain
    JavaScript object, [{}], used as a dictionary.  Its own properties are
    modelled in the order in which the engine enumerates them (array-index
    names first, in ascending order, then the other names in the order of
    their creation), and a lookup [acc[k]] that finds no own property goes on
    to [Object.prototype], whose members ([constructor], [toString],
    [__proto__], ...) are found under their names. *)

From Stdlib Require Import ZArith List String Ascii Bool Lia Permutation Sorted.
From Stdlib Require Floats Uint63.
Import ListNotations.
Open Scope string_scope.
Open Scope Z_scope.
Open Scope list_scope.

(** ** Part I.  Data *)

(** [interface DatabaseAgentProgress]: a row of the table [agent_progress].
    [T | null] is [option T]; [progress] is the agent's percentage, a whole
    number. *)
Record DatabaseAgentProgress := mkRow {
  id : string;
  query_id : option string;
  agent_name : string;
  status : option string;
  progress : option Z;
  current_task : option string;
  created_at : option string;
  updated_at : option string
}.

(** [interface AgentProgress] of [types/research.ts]: [name], [status],
    [progress], [currentTask?].  The fields [status] and [progress] are
    [ap_status] and [ap_progress] here, the plain names being those of the
    row.  The cast [item.status as AgentProgress['status']] is erased at run
    time, so [ap_status] holds whatever string the row holds; an absent
    [currentTask] is [None]. *)
Record AgentProgress := mkAgent {
  name : string;
  ap_status : string;
  ap_progress : Z;
  currentTask : option string
}.

Definition option_eqb {A} (eqb : A -> A -> bool) (x y : option A) : bool :=
  match x, y with
  | Some a, Some b => eqb a b
  | None, None => true
  | _, _ => false
  end.

(** ** Decimal numerals *)

Definition digit (c : ascii) : option Z :=
  let n := Z.of_nat (nat_of_ascii c) in
  if (48 <=? n) && (n <=? 57) then Some (n - 48) else None.

(** The number written by a string of decimal digits, after [acc]. *)
Fixpoint number_from (acc : Z) (s : string) : option Z :=
  match s with
  | EmptyString => Some acc
  | String c s' =>
      match digit c with
      | Some d => number_from (10 * acc + d) s'
      | None => None
      end
  end.

(** ** JavaScript objects used as dictionaries *)

Module Obj.

(** The property names of [Object.prototype], which every object created by
    [{}] inherits. *)
Definition prototype : list string :=
  ["constructor"; "__defineGetter__"; "__defineSetter__"; "hasOwnProperty";
   "__lookupGetter__"; "__lookupSetter__"; "isPrototypeOf";
   "propertyIsEnumerable"; "toString"; "valueOf"; "__proto__";
   "toLocaleString"].

Definition inherited (k : string) : bool :=
  existsb (String.eqb k) prototype.

(** An array index: the canonical decimal numeral of an integer from [0] to
    [2^32 - 2] (no sign, no leading zero).  Two different names are never
    the same index ([arrayIndex_inj]). *)
Definition arrayIndex (k : string) : option Z :=
  match k with
  | EmptyString => None
  | String c rest =>
      if Ascii.eqb c "0"%char && negb (String.eqb rest "") then None
      else
        match number_from 0 k with
        | Some n => if n <? 4294967295 then Some n else None
        | None => None
        end
  end.

Section Dict.
Context {V : Type}.

(** The own properties of the object, in the order of [Object.keys]: the
    array indices in ascending order, then the other names, oldest first. *)
Definition t := list (string * V).

(** [{}]. *)
Definition empty : t := [].

(** What a lookup [o[k]] gives: [undefined], the value of an own property,
    or a member of [Object.prototype] (a function, or [Object.prototype]
    itself under [__proto__]). *)
Inductive Value :=
| Undefined
| Own (v : V)
| Inherited.

(** The own property [k] of [o], if there is one. *)
Fixpoint own (o : t) (k : string) : option V :=
  match o with
  | [] => None
  | (k', v) :: o' => if String.eqb k' k then Some v else own o' k
  end.

(** [o[k]]: the own property, else the member of the prototype. *)
Definition get (o : t) (k : string) : Value :=
  match own o k with
  | Some v => Own v
  | None => if inherited k then Inherited else Undefined
  end.

(** The new value of a property that exists; it keeps its place. *)
Fixpoint replace (o : t) (k : string) (v : V) : t :=
  match o with
  | [] => []
  | (k', v') :: o' =>
      if String.eqb k' k then (k', v) :: o' else (k', v') :: replace o' k v
  end.

(** A new property under the array index [n]: after the indices up to [n],
    before the greater ones and the other names. *)
Fixpoint place (n : Z) (k : string) (v : V) (o : t) : t :=
  match o with
  | [] => [(k, v)]
  | (k', v') :: o' =>
      match arrayIndex k' with
      | Some m => if m <=? n then (k', v') :: place n k v o' else (k, v) :: o
      | None => (k, v) :: o
      end
  end.

(** [o[k] = v], for a name [k] that is an own property of [o] or is not
    found at all: an existing property keeps its place, a new array index
    goes to its place among the indices, any other new name goes last.  (An
    assignment under an inherited name would shadow the member or, under
    [__proto__], replace the prototype; the [reduce] makes none, see
    [reducer_inherited].) *)
Definition set (o : t) (k : string) (v : V) : t :=
  match own o k with
  | Some _ => replace o k v
  | None =>
      match arrayIndex k with
      | Some n => place n k v o
      | None => o ++ [(k, v)]
      end
  end.

(** [Object.keys(o)]. *)
Definition keys (o : t) : list string := map fst o.

(** [Object.values(o)]. *)
Definition values (o : t) : list V := map snd o.
End Dict.
Arguments t : clear implicits.
Arguments Value : clear implicits.
Arguments Undefined {V}.
Arguments Inherited {V}.

(** The order of enumeration: an array index comes before a greater index
    and before every other name. *)
Definition before (k1 k2 : string) : Prop :=
  match arrayIndex k1, arrayIndex k2 with
  | Some a, Some b => a <= b
  | Some _, None => True
  | None, Some _ => False
  | None, None => True
  end.

(** The own properties are listed in the order of enumeration. *)
Definition ordered {V} (o : t V) : Prop := StronglySorted before (keys o).

End Obj.

(** ** Dates *)

(** The time value of a [Date], or [None] for an Invalid Date (a NaN time
    value). *)
Definition TimeValue := option Z.

(** [a > b] on two [Date]s: both are converted to their time values and
    compared as numbers; a comparison with NaN is [false]. *)
Definition date_gt (a b : TimeValue) : bool :=
  match a, b with
  | Some x, Some y => y <? x
  | _, _ => false
  end.

(** Order on time values, both of them valid. *)
Definition time_le (a b : TimeValue) : Prop :=
  match a, b with
  | Some x, Some y => x <= y
  | _, _ => False
  end.


Section Aggregator.

(** [DateValue s] is the time value of [new Date(s)] in milliseconds since
    the epoch, for a non-empty string [s]; the parser is the platform's. *)
Variable DateValue : string -> TimeValue.

(** [new Date(s)]; [new Date('')] is an Invalid Date. *)
Definition newDate (s : string) : TimeValue :=
  if String.eqb s "" then None else DateValue s.

(** [u || '']: [null] and the empty string both give the empty string. *)
Definition or_empty (u : option string) : string :=
  match u with
  | Some s => s
  | None => ""
  end.

(** [new Date(item.updated_at || '')]. *)
Definition updated (item : DatabaseAgentProgress) : TimeValue :=
  newDate (or_empty (updated_at item)).

(** The row has a timestamp: its [updated_at] is not [null] and the [Date]
    made of it is valid. *)
Definition timed (item : DatabaseAgentProgress) : Prop :=
  exists t, updated item = Some t.

(** The callback of [data.reduce]:
    [if (!acc[n] || new Date(item.updated_at || '') >
                    new Date(acc[n].updated_at || '')) acc[n] = item].
    A row is truthy, and so is a member of [Object.prototype]; such a member
    has no [updated_at], so the date it is compared with is
    [new Date(undefined || '')]. *)
Definition reducer (acc : Obj.t DatabaseAgentProgress)
    (item : DatabaseAgentProgress) : Obj.t DatabaseAgentProgress :=
  match Obj.get acc (agent_name item) with
  | Obj.Undefined => Obj.set acc (agent_name item) item
  | Obj.Own cur =>
      if date_gt (updated item) (updated cur)
      then Obj.set acc (agent_name item) item
      else acc
  | Obj.Inherited =>
      if date_gt (updated item) (newDate (or_empty None))
      then Obj.set acc (agent_name item) item
      else acc
  end.

(** [latestProgressByAgent = data.reduce(..., {})]. *)
Definition latestProgressByAgent (data : list DatabaseAgentProgress)
    : Obj.t DatabaseAgentProgress :=
  fold_left reducer data Obj.empty.

(** [item.status || 'waiting']: [null] and [''] are falsy. *)
Definition status_or_waiting (s : option string) : string :=
  match s with
  | Some v => if String.eqb v "" then "waiting" else v
  | None => "waiting"
  end.

(** [item.progress || 0]: [null] and [0] are falsy. *)
Definition progress_or_zero (p : option Z) : Z :=
  match p with
  | Some v => if v =? 0 then 0 else v
  | None => 0
  end.

(** [item.current_task || undefined]: [null] and [''] are falsy. *)
Definition task_or_undefined (c : option string) : option string :=
  match c with
  | Some v => if String.eqb v "" then None else Some v
  | None => None
  end.

(** The callback of [Object.values(latestProgressByAgent).map]. *)
Definition toAgentProgress (item : DatabaseAgentProgress) : AgentProgress :=
  {| name := agent_name item;
     ap_status := status_or_waiting (status item);
     ap_progress := progress_or_zero (progress item);
     currentTask := task_or_undefined (current_task item) |}.

(** [mappedProgress], the value handed to [setAgentProgress]. *)
Definition mappedProgress (data : list DatabaseAgentProgress)
    : list AgentProgress :=
  map toAgentProgress (Obj.values (latestProgressByAgent data)).

End Aggregator.

(** ** Part II.  The hook as a machine *)

(** The two tables the channel listens to. *)
Inductive Table := agent_progress | research_queries.

(** A realtime channel; its name is
    [`agent-progress-${queryId}-${Date.now()}`]. *)
Record Channel := mkChannel {
  ch_query : string;
  ch_stamp : Z
}.

(** What the awaited query settles to: the [{ data, error }] pair of the
    client, or a rejection, which [await] rethrows. *)
Inductive Settled :=
| Fulfilled (data : option (list DatabaseAgentProgress)) (error : option string)
| Rejected (reason : string).

(** Effects on the outside world, as they are logged. *)
Inductive Action :=
| StoreRead (req : nat) (q : string)
| RemoveChannel (c : Channel)
| Subscribe (c : Channel)
| SetInterval (iv : nat) (q : string)
| ClearInterval (iv : nat)
| SetTimeout (due : Z) (q : string)
| SetAgentProgress (v : list AgentProgress)
| ConsoleError (msg detail : string).

(** A [setInterval] timer: its id, the [queryId] its callback closes over and
    the time of its next tick. *)
Record Interval := mkInterval {
  iv_id : nat;
  iv_query : string;
  iv_due : Z
}.

(** How a call of the async function ends. *)
Inductive Completion := Normal | Throw (reason : string).

(** One instance of the hook together with the part of the runtime it uses. *)
Record Hook := mkHook {
  clock : Z;                          (* Date.now() *)
  mounted : bool;
  deps : option (option string);      (* queryId of the last effect run *)
  cleanup : option nat;               (* the pending cleanup and its intervalId *)
  agentProgress : list AgentProgress; (* useState *)
  channelRef : option Channel;        (* useRef(null) *)
  lastFetchRef : Z;                   (* useRef(0) *)
  intervals : list Interval;          (* live setInterval timers *)
  timeouts : list (Z * string);       (* pending setTimeout callbacks *)
  inflight : list (nat * string);     (* awaited store reads *)
  fresh : nat;                        (* next request or timer id *)
  unhandled : list string;            (* unhandled promise rejections *)
  log : list (Z * Action)             (* oldest first *)
}.

(** The hook before its first render, at time [t0]. *)
Definition init (t0 : Z) : Hook :=
  mkHook t0 true None None [] None 0 [] [] [] 0%nat [] [].

Definition set_clock (v : Z) (h : Hook) : Hook :=
  mkHook v (mounted h) (deps h) (cleanup h) (agentProgress h) (channelRef h)
    (lastFetchRef h) (intervals h) (timeouts h) (inflight h) (fresh h)
    (unhandled h) (log h).

Definition set_mounted (v : bool) (h : Hook) : Hook :=
  mkHook (clock h) v (deps h) (cleanup h) (agentProgress h) (channelRef h)
    (lastFetchRef h) (intervals h) (timeouts h) (inflight h) (fresh h)
    (unhandled h) (log h).

Definition set_deps (v : option (option string)) (h : Hook) : Hook :=
  mkHook (clock h) (mounted h) v (cleanup h) (agentProgress h) (channelRef h)
    (lastFetchRef h) (intervals h) (timeouts h) (inflight h) (fresh h)
    (unhandled h) (log h).

Definition set_cleanup (v : option nat) (h : Hook) : Hook :=
  mkHook (clock h) (mounted h) (deps h) v (agentProgress h) (channelRef h)
    (lastFetchRef h) (intervals h) (timeouts h) (inflight h) (fresh h)
    (unhandled h) (log h).

Definition set_agentProgress (v : list AgentProgress) (h : Hook) : Hook :=
  mkHook (clock h) (mounted h) (deps h) (cleanup h) v (channelRef h)
    (lastFetchRef h) (intervals h) (timeouts h) (inflight h) (fresh h)
    (unhandled h) (log h).

Definition set_channelRef (v : option Channel) (h : Hook) : Hook :=
  mkHook (clock h) (mounted h) (deps h) (cleanup h) (agentProgress h) v
    (lastFetchRef h) (intervals h) (timeouts h) (inflight h) (fresh h)
    (unhandled h) (log h).

Definition set_lastFetchRef (v : Z) (h : Hook) : Hook :=
  mkHook (clock h) (mounted h) (deps h) (cleanup h) (agentProgress h)
    (channelRef h) v (intervals h) (timeouts h) (inflight h) (fresh h)
    (unhandled h) (log h).

Definition set_intervals (v : list Interval) (h : Hook) : Hook :=
  mkHook (clock h) (mounted h) (deps h) (cleanup h) (agentProgress h)
    (channelRef h) (lastFetchRef h) v (timeouts h) (inflight h) (fresh h)
    (unhandled h) (log h).

Definition set_timeouts (v : list (Z * string)) (h : Hook) : Hook :=
  mkHook (clock h) (mounted h) (deps h) (cleanup h) (agentProgress h)
    (channelRef h) (lastFetchRef h) (intervals h) v (inflight h) (fresh h)
    (unhandled h) (log h).

Definition set_inflight (v : list (nat * string)) (h : Hook) : Hook :=
  mkHook (clock h) (mounted h) (deps h) (cleanup h) (agentProgress h)
    (channelRef h) (lastFetchRef h) (intervals h) (timeouts h) v (fresh h)
    (unhandled h) (log h).

Definition set_fresh (v : nat) (h : Hook) : Hook :=
  mkHook (clock h) (mounted h) (deps h) (cleanup h) (agentProgress h)
    (channelRef h) (lastFetchRef h) (intervals h) (timeouts h) (inflight h) v
    (unhandled h) (log h).

Definition set_unhandled (v : list string) (h : Hook) : Hook :=
  mkHook (clock h) (mounted h) (deps h) (cleanup h) (agentProgress h)
    (channelRef h) (lastFetchRef h) (intervals h) (timeouts h) (inflight h)
    (fresh h) v (log h).

(** Record an effect at the current time. *)
Definition emit (a : Action) (h : Hook) : Hook :=
  mkHook (clock h) (mounted h) (deps h) (cleanup h) (agentProgress h)
    (channelRef h) (lastFetchRef h) (intervals h) (timeouts h) (inflight h)
    (fresh h) (unhandled h) (log h ++ [(clock h, a)]).

(** What the environment can do to the hook. *)
Inductive Event :=
| Render (queryId : option string)   (* the owner renders with this queryId *)
| Unmount
| Advance (dt : N)                   (* [dt] milliseconds pass *)
| Notify (tbl : Table)               (* the change feed reports a change *)
| SubscribeStatus (error : option string)
| TimeoutFires (i : nat)             (* the i-th pending setTimeout runs *)
| IntervalFires (iv : nat)           (* the setInterval timer [iv] ticks *)
| Settle (req : nat) (res : Settled).  (* an awaited store read settles *)

(** [!queryId]: [null] and [''] are falsy. *)
Definition no_query (queryId : option string) : bool :=
  match queryId with
  | None => true
  | Some q => String.eqb q ""
  end.

Fixpoint remove_interval (iv : nat) (l : list Interval) : list Interval :=
  match l with
  | [] => []
  | x :: l' =>
      if Nat.eqb (iv_id x) iv then remove_interval iv l'
      else x :: remove_interval iv l'
  end.

Fixpoint find_interval (iv : nat) (l : list Interval) : option Interval :=
  match l with
  | [] => None
  | x :: l' => if Nat.eqb (iv_id x) iv then Some x else find_interval iv l'
  end.

Fixpoint rearm_interval (iv : nat) (due : Z) (l : list Interval)
    : list Interval :=
  match l with
  | [] => []
  | x :: l' =>
      if Nat.eqb (iv_id x) iv
      then mkInterval (iv_id x) (iv_query x) due :: l'
      else x :: rearm_interval iv due l'
  end.

Fixpoint find_request (req : nat) (l : list (nat * string)) : option string :=
  match l with
  | [] => None
  | (r, q) :: l' => if Nat.eqb r req then Some q else find_request req l'
  end.

Fixpoint remove_request (req : nat) (l : list (nat * string))
    : list (nat * string) :=
  match l with
  | [] => []
  | (r, q) :: l' =>
      if Nat.eqb r req then l' else (r, q) :: remove_request req l'
  end.

Fixpoint remove_nth {A} (i : nat) (l : list A) : list A :=
  match i, l with
  | _, [] => []
  | O, _ :: l' => l'
  | S i', x :: l' => x :: remove_nth i' l'
  end.

Section Machine.

Variable DateValue : string -> TimeValue.

(** [setAgentProgress(v)].  React drops an update of a component that has
    been unmounted. *)
Definition setAgentProgress (v : list AgentProgress) (h : Hook) : Hook :=
  if mounted h then emit (SetAgentProgress v) (set_agentProgress v h)
  else h.

(** [console.error(msg, detail)]. *)
Definition console_error (msg detail : string) (h : Hook) : Hook :=
  emit (ConsoleError msg detail) h.

(** [fetchProgress], up to the [await]: the 500ms guard, the write of
    [lastFetchRef] and the query that is sent to the store. *)
Definition fetchProgress (queryId : string) (h : Hook) : Hook :=
  let now := clock h in
  if now - lastFetchRef h <? 500 then h
  else
    let h1 := set_lastFetchRef now h in
    let req := fresh h1 in
    emit (StoreRead req queryId)
      (set_inflight (inflight h1 ++ [(req, queryId)])
         (set_fresh (S req) h1)).

(** The body of the [try] block once the awaited query has settled.  The
    second component is the exception the block throws, if any. *)
Definition fetchProgress_try (res : Settled) (h : Hook)
    : Hook * option string :=
  match res with
  | Rejected reason => (h, Some reason)
  | Fulfilled _ (Some error) =>
      (console_error "Error fetching agent progress:" error h, None)
  | Fulfilled (Some data) None =>
      (setAgentProgress (mappedProgress DateValue data) h, None)
  | Fulfilled None None => (h, None)
  end.

(** [fetchProgress], from the [await] on: the [try] block under its
    [catch]. *)
Definition fetchProgress_resume (res : Settled) (h : Hook)
    : Hook * Completion :=
  match fetchProgress_try res h with
  | (h', Some reason) =>
      (console_error "Caught error in fetchProgress:" reason h', Normal)
  | (h', None) => (h', Normal)
  end.

(** [supabase.removeChannel(channelRef.current); channelRef.current = null]
    under [if (channelRef.current)]. *)
Definition drop_channel (h : Hook) : Hook :=
  match channelRef h with
  | Some c => set_channelRef None (emit (RemoveChannel c) h)
  | None => h
  end.

(** The function the effect returns. *)
Definition effect_cleanup (intervalId : nat) (h : Hook) : Hook :=
  let h1 := drop_channel h in
  emit (ClearInterval intervalId)
    (set_intervals (remove_interval intervalId (intervals h1)) h1).

(** React runs the pending cleanup, if the last effect returned one. *)
Definition run_cleanup (h : Hook) : Hook :=
  match cleanup h with
  | Some intervalId => set_cleanup None (effect_cleanup intervalId h)
  | None => h
  end.

(** [supabase.channel(channelName).on(...).on(...).subscribe(...)], stored in
    [channelRef.current]. *)
Definition open_channel (queryId : string) (h : Hook) : Hook :=
  let c := mkChannel queryId (clock h) in
  set_channelRef (Some c) (emit (Subscribe c) h).

(** [setInterval(() => fetchProgress(), 3000)]; the effect then returns the
    cleanup that closes over the new id. *)
Definition start_polling (queryId : string) (h : Hook) : Hook :=
  let intervalId := fresh h in
  set_cleanup (Some intervalId)
    (emit (SetInterval intervalId queryId)
       (set_intervals
          (intervals h ++ [mkInterval intervalId queryId (clock h + 3000)])
          (set_fresh (S intervalId) h))).

(** The body of [useEffect]. *)
Definition effect (queryId : option string) (h : Hook) : Hook :=
  match queryId with
  | None => setAgentProgress [] h
  | Some q =>
      if String.eqb q "" then setAgentProgress [] h
      else
        start_polling q (open_channel q (fetchProgress q (drop_channel h)))
  end.

(** The handler of both [postgres_changes] subscriptions:
    [setTimeout(() => fetchProgress(), 100)]. *)
Definition on_change (queryId : string) (h : Hook) : Hook :=
  let due := clock h + 100 in
  emit (SetTimeout due queryId)
    (set_timeouts (timeouts h ++ [(due, queryId)]) h).

(** The dependency array [[queryId]] against that of the last effect run;
    there is none before the first render. *)
Definition same_deps (last : option (option string))
    (queryId : option string) : bool :=
  match last with
  | Some old => option_eqb String.eqb old queryId
  | None => false
  end.

(** One step of the machine.  On a render whose [queryId] is not the one of
    the last effect run, React runs the pending cleanup, if there is one, and
    then the effect.  An event that cannot happen in the state it
    meets (a timer that is not due, a request that is not awaited, anything
    but the clock after the unmount of the owner) leaves the state as it
    is. *)
Definition step (h : Hook) (e : Event) : Hook :=
  match e with
  | Advance dt => set_clock (clock h + Z.of_N dt) h
  | Render queryId =>
      if negb (mounted h) then h
      else if same_deps (deps h) queryId then h
      else set_deps (Some queryId) (effect queryId (run_cleanup h))
  | Unmount =>
      if negb (mounted h) then h
      else set_mounted false (run_cleanup h)
  | Notify _ =>
      match channelRef h with
      | Some c => on_change (ch_query c) h
      | None => h
      end
  | SubscribeStatus error =>
      match channelRef h, error with
      | Some _, Some e => console_error "Supabase subscription error:" e h
      | _, _ => h
      end
  | TimeoutFires i =>
      match nth_error (timeouts h) i with
      | Some (due, q) =>
          if due <=? clock h
          then fetchProgress q (set_timeouts (remove_nth i (timeouts h)) h)
          else h
      | None => h
      end
  | IntervalFires iv =>
      match find_interval iv (intervals h) with
      | Some x =>
          if iv_due x <=? clock h
          then fetchProgress (iv_query x)
                 (set_intervals
                    (rearm_interval iv (clock h + 3000) (intervals h)) h)
          else h
      | None => h
      end
  | Settle req res =>
      match find_request req (inflight h) with
      | Some _ =>
          match
            fetchProgress_resume res
              (set_inflight (remove_request req (inflight h)) h)
          with
          | (h', Normal) => h'
          | (h', Throw reason) =>
              set_unhandled (unhandled h' ++ [reason]) h'
          end
      | None => h
      end
  end.

(** A run: the events of a list, in order. *)
Definition run (h : Hook) (evs : list Event) : Hook := fold_left step evs h.

End Machine.

(** The time of an event: only the clock takes time. *)
Definition elapse (e : Event) : Z :=
  match e with
  | Advance dt => Z.of_N dt
  | _ => 0
  end.

(** Time that passes during a run. *)
Definition duration (evs : list Event) : Z :=
  fold_right (fun e d => elapse e + d) 0 evs.

(** The times at which the store is read, oldest first. *)
Fixpoint reads (l : list (Z * Action)) : list Z :=
  match l with
  | [] => []
  | (t, StoreRead _ _) :: l' => t :: reads l'
  | _ :: l' => reads l'
  end.

(** The times at which [setAgentProgress] writes the state. *)
Fixpoint writes (l : list (Z * Action)) : list Z :=
  match l with
  | [] => []
  | (t, SetAgentProgress _) :: l' => t :: writes l'
  | _ :: l' => writes l'
  end.

(** A failed fetch: the store answers with an error, or the query rejects. *)
Definition failed (res : Settled) : Prop :=
  match res with
  | Fulfilled _ (Some _) => True
  | Fulfilled _ None => False
  | Rejected _ => True
  end.

(** ** An instance of [DateValue]

    Everything below is parametric in the platform's date parser.  To run the
    model on concrete rows we use the parser of two ISO-8601 forms on valid
    calendar dates: [YYYY-MM-DDTHH:mm:ssZ], and the same with a fraction of a
    second of one to six digits, [YYYY-MM-DDTHH:mm:ss.ffffffZ], the precision
    of a [timestamptz] column.  A [Date] holds whole milliseconds: the digits
    of the fraction after the third are dropped. *)

Definition field (s : string) (from len : nat) : option Z :=
  let f := substring from len s in
  if Nat.eqb (String.length f) len then number_from 0 f else None.

Definition sep (s : string) (at_ : nat) (c : string) : bool :=
  String.eqb (substring at_ 1 s) c.

Definition leap_year (y : Z) : bool :=
  ((y mod 4 =? 0) && negb (y mod 100 =? 0)) || (y mod 400 =? 0).

Definition days_in_month (y m : Z) : Z :=
  if m =? 2 then (if leap_year y then 29 else 28)
  else if (m =? 4) || (m =? 6) || (m =? 9) || (m =? 11) then 30
  else 31.

(** Days from 1970-01-01 to the civil date [y]-[m]-[d]. *)
Definition days_from_civil (y m d : Z) : Z :=
  let y' := if m <=? 2 then y - 1 else y in
  let era := y' / 400 in
  let yoe := y' - era * 400 in
  let mp := (m + 9) mod 12 in
  let doy := (153 * mp + 2) / 5 + d - 1 in
  let doe := yoe * 365 + yoe / 4 - yoe / 100 + doy in
  era * 146097 + doe - 719468.

(** The seconds from the epoch to the instant written by the first 19
    characters, [YYYY-MM-DDTHH:mm:ss]. *)
Definition utcSeconds (s : string) : option Z :=
  if sep s 4 "-" && sep s 7 "-" && sep s 10 "T"
     && sep s 13 ":" && sep s 16 ":"
  then
    match field s 0 4, field s 5 2, field s 8 2,
          field s 11 2, field s 14 2, field s 17 2 with
    | Some y, Some mo, Some d, Some hh, Some mi, Some ss =>
        if (1 <=? mo) && (mo <=? 12) && (1 <=? d) && (d <=? days_in_month y mo)
           && (hh <=? 23) && (mi <=? 59) && (ss <=? 59)
        then Some (((days_from_civil y mo d * 24 + hh) * 60 + mi) * 60 + ss)
        else None
    | _, _, _, _, _, _ => None
    end
  else None.

(** The whole milliseconds of a fraction of [len] digits. *)
Definition milliseconds (s : string) (from len : nat) : option Z :=
  match field s from len with
  | Some f => Some (f * 1000 / 10 ^ Z.of_nat len)
  | None => None
  end.

Definition utcTime (s : string) : TimeValue :=
  let n := String.length s in
  if Nat.eqb n 20 && sep s 19 "Z" then
    match utcSeconds s with
    | Some sec => Some (sec * 1000)
    | None => None
    end
  else if Nat.leb 22 n && Nat.leb n 27 && sep s 19 "." && sep s (n - 1) "Z"
  then
    match utcSeconds s, milliseconds s 20 (n - 21) with
    | Some sec, Some ms => Some (sec * 1000 + ms)
    | _, _ => None
    end
  else None.

(** Rows used in the examples. *)
Definition row (i a : string) (st : option string) (p : option Z)
    (u : option string) : DatabaseAgentProgress :=
  mkRow i (Some "q1") a st p None None u.

Definition browser_early : DatabaseAgentProgress :=
  row "1" "Browser Agent" (Some "active") (Some 40) (Some "2024-01-01T00:00:00Z").

Definition browser_late : DatabaseAgentProgress :=
  row "2" "Browser Agent" (Some "completed") (Some 100)
    (Some "2024-01-01T00:05:00Z").

(** Same agent and same [updated_at] as [browser_early]. *)
Definition browser_tie : DatabaseAgentProgress :=
  row "3" "Browser Agent" (Some "active") (Some 60) (Some "2024-01-01T00:00:00Z").

Definition browser_null : DatabaseAgentProgress :=
  row "4" "Browser Agent" None None None.

Definition writer_blank : DatabaseAgentProgress :=
  row "5" "Writer Agent" (Some "") (Some 0) (Some "2024-01-01T00:01:00Z").

Definition writer_paused : DatabaseAgentProgress :=
  row "6" "Writer Agent" (Some "paused") (Some 10) (Some "2024-01-01T00:02:00Z").




(** The store answers with rows and no error. *)
Definition rows (data : list DatabaseAgentProgress) : Settled :=
  Fulfilled (Some data) None.

(** 2024-01-01T00:00:00Z, the time of the first render in the examples. *)
Definition t0 : Z := 1704067200000.

(** The seed fetch (request 0) is still awaited when the poll tick starts
    request 2; request 2 settles first, request 0 last. *)
Definition stale_run : list Event :=
  [Render (Some "q1"); Advance 3000; IntervalFires 1; Advance 100;
   Settle 2 (rows [browser_late]); Advance 100;
   Settle 0 (rows [browser_early])].

(** The subscription is closed while the seed fetch is awaited. *)
Definition teardown_run : list Event :=
  [Render (Some "q1"); Advance 200; Render None; Advance 200;
   Settle 0 (rows [browser_early])].

(** The seed fetch takes 400ms; a notification 100ms later arms a timer that
    fires 200ms after the fetch has completed. *)
Definition early_refetch_run : list Event :=
  [Render (Some "q1"); Advance 400; Settle 0 (rows [browser_early]);
   Advance 100; Notify agent_progress; Advance 100; TimeoutFires 0].

(** The owner switches to another query 100ms after the first render. *)
Definition resubscribe_run : list Event :=
  [Render (Some "q1"); Advance 100; Render (Some "q2")].

(** After the switch the seed fetch of ["q1"] settles. *)
Definition resubscribe_settled_run : list Event :=
  resubscribe_run ++ [Advance 100; Settle 0 (rows [browser_early])].

(** Ten notifications, 5ms apart. *)
Definition burst10 : list Event :=
  [Notify agent_progress; Advance 5; Notify research_queries; Advance 5;
   Notify agent_progress; Advance 5; Notify agent_progress; Advance 5;
   Notify agent_progress; Advance 5; Notify research_queries; Advance 5;
   Notify agent_progress; Advance 5; Notify agent_progress; Advance 5;
   Notify agent_progress; Advance 5; Notify agent_progress].

(** The ten timers of the burst run, oldest first. *)
Definition fire10 : list Event := repeat (TimeoutFires 0) 10.

(** The hook 200ms after its first render with ["q1"]: the channel is
    open, the interval runs, the seed fetch (request 0) is awaited. *)
Definition subscribed : Hook :=
  run utcTime (init t0) [Render (Some "q1"); Advance 200].

(** The hook after the first poll tick: requests 0 and 2 are awaited. *)
Definition two_awaited : Hook :=
  run utcTime (init t0) [Render (Some "q1"); Advance 3000; IntervalFires 1].

(** The hook one second after its first render. *)
Definition one_second_in : Hook :=
  run utcTime (init t0) [Render (Some "q1"); Advance 1000].

(** The events that call [fetchProgress] for a subscription: the effect of a
    render with a query (seed), a 100ms timer (push), a poll tick. *)
Definition fetch_trigger (e : Event) : Prop :=
  match e with
  | Render (Some q) => q <> ""
  | TimeoutFires _ => True
  | IntervalFires _ => True
  | _ => False
  end.

(** A burst: notifications, and time passing between them. *)
Definition is_burst (evs : list Event) : Prop :=
  Forall (fun e => match e with Notify _ | Advance _ => True | _ => False end)
    evs.

(** The timers a burst arms on a channel of [queryId], from time [now] on. *)
Fixpoint armed (now : Z) (queryId : string) (evs : list Event)
    : list (Z * string) :=
  match evs with
  | [] => []
  | Advance dt :: evs' => armed (now + Z.of_N dt) queryId evs'
  | Notify _ :: evs' => (now + 100, queryId) :: armed now queryId evs'
  | _ :: evs' => armed now queryId evs'
  end.

Definition Channel_eqb (a b : Channel) : bool :=
  String.eqb (ch_query a) (ch_query b) && (ch_stamp a =? ch_stamp b).

(** The channels that are subscribed and not yet removed, read off the log:
    [Subscribe] adds one, [RemoveChannel] takes it away. *)
Definition live_step (acc : list Channel) (x : Z * Action) : list Channel :=
  match snd x with
  | Subscribe c => acc ++ [c]
  | RemoveChannel c => filter (fun c' => negb (Channel_eqb c' c)) acc
  | _ => acc
  end.

Definition live_channels (l : list (Z * Action)) : list Channel :=
  fold_left live_step l [].

Definition held (c : option Channel) : list Channel :=
  match c with
  | Some x => [x]
  | None => []
  end.

(** The live channels are the one in [channelRef], if any. *)
Definition chan_ok (h : Hook) : Prop :=
  live_channels (log h) = held (channelRef h).

(** The live intervals are the one the pending cleanup will clear, if any. *)
Definition poll_ok (h : Hook) : Prop :=
  match cleanup h with
  | Some intervalId =>
      exists q due, intervals h = [mkInterval intervalId q due]
  | None => intervals h = []
  end.

(** Consecutive times are 500ms apart or more. *)
Fixpoint spaced (l : list Z) : Prop :=
  match l with
  | [] => True
  | x :: l' =>
      match l' with
      | [] => True
      | y :: _ => 500 <= y - x
      end /\ spaced l'
  end.

(** [calm h h']: going from [h] to [h'] neither moves the clock nor reads
    the store nor touches [lastFetchRef]. *)
Definition calm (h h' : Hook) : Prop :=
  clock h' = clock h /\
  lastFetchRef h' = lastFetchRef h /\
  reads (log h') = reads (log h).

(** [reading h h']: going from [h] to [h'] does not move the clock and reads
    the store at most once; a read happens at the current time, 500ms or more
    after [lastFetchRef], which it sets. *)
Definition reading (h h' : Hook) : Prop :=
  clock h' = clock h /\
  ((reads (log h') = reads (log h) /\ lastFetchRef h' = lastFetchRef h) \/
   (reads (log h') = reads (log h) ++ [clock h] /\
    lastFetchRef h' = clock h /\
    500 <= clock h - lastFetchRef h)).

(** [quiet h h']: moreover no request is started or settled, no timer is armed
    or run, and [agentProgress] is not written. *)
Definition quiet (h h' : Hook) : Prop :=
  calm h h' /\
  inflight h' = inflight h /\
  agentProgress h' = agentProgress h /\
  mounted h' = mounted h /\
  timeouts h' = timeouts h /\
  unhandled h' = unhandled h /\
  writes (log h') = writes (log h).

(** The first row of an agent in an answer. *)
Definition first_row (n : string) (l : list DatabaseAgentProgress)
    : option DatabaseAgentProgress :=
  find (fun r => String.eqb (agent_name r) n) l.

(** An answer as the query of [fetchProgress] asks for it,
    [.order('updated_at', { ascending: false })]: every row is at least as
    late as the rows after it. *)
Definition newest_first (DateValue : string -> TimeValue)
    (l : list DatabaseAgentProgress) : Prop :=
  StronglySorted
    (fun a b => time_le (updated DateValue b) (updated DateValue a)) l.

(** An answer sorted the way the store sorts it. *)
Definition sorted_answer : list DatabaseAgentProgress :=
  [browser_late; writer_paused; writer_blank; browser_early].

(** The hook is closed: no channel, no interval. *)
Definition closed (h : Hook) : Prop :=
  channelRef h = None /\ intervals h = [].

(** What holds of the refs in every state the hook reaches: the interval is
    the one of the pending cleanup, a channel is held exactly when a cleanup
    is pending, and none is pending once the owner is unmounted. *)
Definition tidy (h : Hook) : Prop :=
  poll_ok h /\
  (cleanup h = None <-> channelRef h = None) /\
  (mounted h = false -> cleanup h = None).

(** Events that open no subscription: every render is without a query. *)
Definition opens_nothing (e : Event) : Prop :=
  match e with
  | Render queryId => no_query queryId = true
  | _ => True
  end.

(** A notification arms a timer, then [queryId] becomes [null]. *)
Definition closed_with_timer : Hook :=
  run utcTime (init t0)
    [Render (Some "q1"); Advance 50; Notify agent_progress; Render None].

(** ** Part III.  The callers of the hook

    [components/ProgressTracker.tsx] and [pages/Dashboard.tsx] call
    [useRealtimeProgress] and decide what to show from what it returns.  A
    view is modelled by the data it shows. *)

(** [Array.prototype.indexOf] on strings: the first index, or [-1]. *)
Fixpoint indexOf_from (i : Z) (l : list string) (s : string) : Z :=
  match l with
  | [] => -1
  | x :: l' => if String.eqb x s then i else indexOf_from (i + 1) l' s
  end.

Definition indexOf (l : list string) (s : string) : Z := indexOf_from 0 l s.

(** [x || d] on an optional string: [undefined], [null] and [''] give [d]. *)
Definition or_else (x : option string) (d : string) : string :=
  match x with
  | Some v => if String.eqb v "" then d else v
  | None => d
  end.

(** [agentProgress.find(agent => agent.status === 'error')], the same line in
    both callers. *)
Definition errorAgent (agentProgress : list AgentProgress)
    : option AgentProgress :=
  find (fun agent => String.eqb (ap_status agent) "error") agentProgress.

(** JavaScript numbers, as IEEE 754 doubles. *)
Module Number.
Import Floats.PrimFloat.

Definition t := float.

(** The double of a (small) integer. *)
Definition of_Z (z : Z) : float :=
  if z <? 0 then opp (of_uint63 (Uint63.of_Z (- z)))
  else of_uint63 (Uint63.of_Z z).

Definition neg_zero (x : float) : bool :=
  eqb x 0%float && ltb (div 1%float x) 0%float.

(** [Math.max(a, b)] and [Math.min(a, b)]: NaN if one is NaN, and [-0] is
    below [+0]. *)
Definition max (a b : float) : float :=
  if is_nan a || is_nan b then nan
  else if ltb a b then b
  else if ltb b a then a
  else if neg_zero a then b else a.

Definition min (a b : float) : float :=
  if is_nan a || is_nan b then nan
  else if ltb a b then a
  else if ltb b a then b
  else if neg_zero a then a else b.

End Number.

Module Tracker.

(** The [states] array of [getStepStatus] and of [getOverallProgress]. *)
Definition states : list string :=
  ["waiting"; "initializing"; "researching"; "analyzing"; "fact_checking";
   "completed"].

(** [getStepStatus(step)], with the state [currentStep] it reads. *)
Definition getStepStatus (currentStep step : string) : string :=
  let currentIndex := indexOf states currentStep in
  let stepIndex := indexOf states step in
  if stepIndex <? currentIndex then "completed"
  else if stepIndex =? currentIndex then "active"
  else "waiting".

(** The [key]s of the [steps] array, in order. *)
Definition steps : list string :=
  ["initializing"; "researching"; "analyzing"; "fact_checking"].

(** [getOverallProgress()]. *)
Definition getOverallProgress (currentStep : string) : Number.t :=
  let currentIndex := indexOf states currentStep in
  Number.max (Number.of_Z 0)
    (Number.min (Number.of_Z 100)
       (Floats.PrimFloat.mul
          (Floats.PrimFloat.div (Number.of_Z currentIndex)
             (Number.of_Z (Z.of_nat (List.length states) - 1)))
          (Number.of_Z 100))).

(** What the component reads of its [query] prop. *)
Record Query := mkQuery {
  id : option string;
  status : option string
}.

(** The three things the component can return: the error card with the
    agent's name and message, the completion card with the target of its
    button if it has one, or the progress card with the overall percentage,
    the status of each step and the agents' lines. *)
Inductive View :=
| ErrorCard (agent message : string)
| CompleteCard (link : option string)
| ProgressCard (overall : Number.t) (stepStatus : list (string * string))
    (agents : list AgentProgress).

(** [query?.id && <button onClick={() => navigate(`/results?id=${query.id}`)}>]. *)
Definition resultsLink (query : option Query) : option string :=
  match query with
  | Some q =>
      match id q with
      | Some i => if String.eqb i "" then None else Some ("/results?id=" ++ i)%string
      | None => None
      end
  | None => None
  end.

(** The body of the component after its hooks. *)
Definition render (currentStep : string) (query : option Query)
    (agentProgress : list AgentProgress) : View :=
  match errorAgent agentProgress with
  | Some agent =>
      ErrorCard (name agent) (or_else (currentTask agent) "Unknown error")
  | None =>
      if String.eqb currentStep "completed"
      then CompleteCard (resultsLink query)
      else ProgressCard (getOverallProgress currentStep)
             (map (fun step => (step, getStepStatus currentStep step)) steps)
             agentProgress
  end.

End Tracker.

Module Dashboard.

Inductive Icon := CheckCircle | Clock | FileText.

(** [getStatusIcon(status)], by the icon it returns. *)
Definition getStatusIcon (status : string) : Icon :=
  if String.eqb status "completed" then CheckCircle
  else if String.eqb status "waiting" || String.eqb status "initializing"
          || String.eqb status "researching" || String.eqb status "analyzing"
          || String.eqb status "fact_checking"
  then Clock
  else FileText.

(** [getStatusText(status)]. *)
Definition getStatusText (status : string) : string :=
  if String.eqb status "completed" then "Completed"
  else if String.eqb status "waiting" then "Initializing"
  else if String.eqb status "initializing" then "Setting up"
  else if String.eqb status "researching" then "Researching"
  else if String.eqb status "analyzing" then "Analyzing"
  else if String.eqb status "fact_checking" then "Fact Checking"
  else "Unknown".

(** [getStatusColor(status)]. *)
Definition getStatusColor (status : string) : string :=
  if String.eqb status "completed" then "bg-green-100 text-green-800"
  else if String.eqb status "waiting" || String.eqb status "initializing"
          || String.eqb status "researching" || String.eqb status "analyzing"
          || String.eqb status "fact_checking"
  then "bg-blue-100 text-blue-800"
  else "bg-gray-100 text-gray-800".

(** The button of a carousel card: [handleViewResults] for a completed
    query, [handleViewProgress] for any other. *)
Definition cardTarget (status queryId : string) : string :=
  if String.eqb status "completed" then ("/results?id=" ++ queryId)%string
  else ("/progress?id=" ++ queryId)%string.

Record Toast := mkToast {
  title : string;
  description : string;
  variant : string
}.

(** The effect on [agentProgress]: the toast it shows, if any. *)
Definition errorToast (agentProgress : list AgentProgress) : option Toast :=
  match errorAgent agentProgress with
  | Some agent =>
      Some (mkToast "Agent Error"
              (name agent ++ " failed: "
               ++ or_else (currentTask agent) "Unknown error")%string
              "destructive")
  | None => None
  end.

(** [tryScroll(attempts)]: [present k] tells whether
    [document.querySelector('[data-carousel-item="0"]')] finds the item at
    the call with [attempts = k]; calls are 200ms apart.  The result is the
    attempt at which the item is scrolled to, or [None] when the function
    gives up.  [budget] counts the retries that [attempts < 15] leaves. *)
Fixpoint tryScroll_within (budget : nat) (present : nat -> bool)
    (attempts : nat) : option nat :=
  if present attempts then Some attempts
  else
    match budget with
    | O => None
    | S budget' => tryScroll_within budget' present (S attempts)
    end.

Definition tryScroll (present : nat -> bool) (attempts : nat) : option nat :=
  tryScroll_within (15 - attempts) present attempts.

End Dashboard.

(** What the hook returns for the answer [[browser_late; writer_error]]. *)
Definition writer_error : DatabaseAgentProgress :=
  mkRow "7" (Some "q1") "Writer Agent" (Some "error") (Some 30)
    (Some "rate limited") None (Some "2024-01-01T00:06:00Z").

(** ** Part I.  Results on the aggregation *)

(** *** Array indices *)

Lemma digit_range c d : digit c = Some d -> 0 <= d <= 9.
Proof.
  unfold digit. destruct (_ && _) eqn:E; [|discriminate].
  apply andb_true_iff in E. destruct E as [E1 E2].
  apply Z.leb_le in E1, E2. intros H. inversion H. lia.
Qed.

Lemma digit_inj c1 c2 d : digit c1 = Some d -> digit c2 = Some d -> c1 = c2.
Proof.
  unfold digit.
  destruct (_ && _); [|discriminate]. destruct (_ && _); [|discriminate].
  intros H1 H2. inversion H1. inversion H2.
  rewrite <- (ascii_nat_embedding c1), <- (ascii_nat_embedding c2).
  f_equal. lia.
Qed.

(** The numeral [s] after [acc] lies between [acc] and [acc + 1], scaled by
    its length. *)
Lemma number_from_range s : forall acc v,
  number_from acc s = Some v ->
  acc * 10 ^ Z.of_nat (String.length s) <= v <
  (acc + 1) * 10 ^ Z.of_nat (String.length s).
Proof.
  induction s as [|c s IH]; intros acc v; cbn [number_from String.length].
  - intros H. inversion H. simpl. lia.
  - destruct (digit c) as [d|] eqn:D; [|discriminate].
    intros H. apply IH in H. apply digit_range in D.
    rewrite Nat2Z.inj_succ, Z.pow_succ_r by lia.
    set (P := 10 ^ Z.of_nat (String.length s)) in *.
    assert (0 < P) by (apply Z.pow_pos_nonneg; lia).
    assert (0 <= d * P) by nia. assert (0 <= (9 - d) * P) by nia.
    lia.
Qed.

Lemma number_from_inj s1 : forall s2 acc1 acc2 v,
  String.length s1 = String.length s2 ->
  number_from acc1 s1 = Some v -> number_from acc2 s2 = Some v ->
  acc1 = acc2 /\ s1 = s2.
Proof.
  induction s1 as [|c1 s1 IH]; intros [|c2 s2] acc1 acc2 v;
    cbn [number_from String.length]; try discriminate.
  - intros _ H1 H2. split; congruence.
  - intros Hl. destruct (digit c1) as [d1|] eqn:D1; [|discriminate].
    destruct (digit c2) as [d2|] eqn:D2; [|discriminate].
    intros H1 H2. inversion Hl as [Hl'].
    destruct (IH _ _ _ _ Hl' H1 H2) as [Ha Hs].
    pose proof (digit_range _ _ D1). pose proof (digit_range _ _ D2).
    assert (d1 = d2) by lia. subst d2.
    split; [lia|]. f_equal; auto. eapply digit_inj; eauto.
Qed.

(** A numeral without a leading zero is at least the power of ten of its
    length. *)
Lemma arrayIndex_range k n :
  Obj.arrayIndex k = Some n ->
  number_from 0 k = Some n /\
  (2 <= Z.of_nat (String.length k) ->
   10 ^ (Z.of_nat (String.length k) - 1) <= n).
Proof.
  unfold Obj.arrayIndex. destruct k as [|c rest]; [discriminate|].
  destruct (Ascii.eqb c "0" && negb (String.eqb rest "")) eqn:E;
    [discriminate|].
  destruct (number_from 0 (String c rest)) as [v|] eqn:N; [|discriminate].
  destruct (v <? 4294967295); [|discriminate].
  intros H. inversion H. subst v. split; [reflexivity|].
  intros Hl. cbn [number_from String.length] in *.
  destruct (digit c) as [d|] eqn:D; [|discriminate].
  assert (Hd : 1 <= d).
  { pose proof (digit_range _ _ D).
    destruct (Z.eq_dec d 0) as [Z|Z]; [|lia]. subst d. exfalso.
    assert (c = "0"%char) by (eapply digit_inj; eauto).
    subst c. simpl in E. destruct rest; [simpl in Hl; lia|discriminate]. }
  apply number_from_range in N.
  rewrite Nat2Z.inj_succ.
  replace (Z.succ (Z.of_nat (String.length rest)) - 1)
    with (Z.of_nat (String.length rest)) by lia.
  set (P := 10 ^ Z.of_nat (String.length rest)) in *.
  assert (0 < P) by (apply Z.pow_pos_nonneg; lia).
  assert (0 <= (d - 1) * P) by nia.
  lia.
Qed.

(** Two different names are never the same array index. *)
Lemma arrayIndex_inj k1 k2 n :
  Obj.arrayIndex k1 = Some n -> Obj.arrayIndex k2 = Some n -> k1 = k2.
Proof.
  intros H1 H2.
  assert (Hne : forall k, Obj.arrayIndex k = Some n ->
                          1 <= Z.of_nat (String.length k)).
  { intros [|c r] H; [discriminate|]. simpl String.length. lia. }
  pose proof (Hne _ H1) as L1. pose proof (Hne _ H2) as L2.
  apply arrayIndex_range in H1, H2.
  destruct H1 as [N1 B1], H2 as [N2 B2].
  pose proof (number_from_range _ _ _ N1) as R1.
  pose proof (number_from_range _ _ _ N2) as R2.
  assert (Hl : String.length k1 = String.length k2).
  { destruct (Z.lt_trichotomy (Z.of_nat (String.length k1))
                (Z.of_nat (String.length k2))) as [L|[L|L]]; [|lia|].
    - exfalso.
      assert (10 ^ Z.of_nat (String.length k1) <=
              10 ^ (Z.of_nat (String.length k2) - 1))
        by (apply Z.pow_le_mono_r; lia).
      specialize (B2 ltac:(lia)). lia.
    - exfalso.
      assert (10 ^ Z.of_nat (String.length k2) <=
              10 ^ (Z.of_nat (String.length k1) - 1))
        by (apply Z.pow_le_mono_r; lia).
      specialize (B1 ltac:(lia)). lia. }
  now destruct (number_from_inj _ _ _ _ _ Hl N1 N2).
Qed.

(** *** The dictionary *)

Lemma get_Own {V} (o : Obj.t V) k v :
  Obj.get o k = Obj.Own v <-> Obj.own o k = Some v.
Proof.
  unfold Obj.get. destruct (Obj.own o k) as [c|].
  - split; intros H; inversion H; reflexivity.
  - destruct (Obj.inherited k); split; discriminate.
Qed.

Lemma get_same_own {V} (o1 o2 : Obj.t V) k :
  Obj.own o1 k = Obj.own o2 k -> Obj.get o1 k = Obj.get o2 k.
Proof. unfold Obj.get. now intros ->. Qed.

Lemma own_app {V} (o1 o2 : Obj.t V) k :
  Obj.own (o1 ++ o2) k =
  match Obj.own o1 k with Some v => Some v | None => Obj.own o2 k end.
Proof.
  induction o1 as [|[k' v'] o1 IH]; simpl; auto.
  destruct (String.eqb k' k); auto.
Qed.

Lemma own_replace_same {V} (o : Obj.t V) k v c :
  Obj.own o k = Some c -> Obj.own (Obj.replace o k v) k = Some v.
Proof.
  induction o as [|[k' v'] o IH]; simpl; [discriminate|].
  destruct (String.eqb k' k) eqn:E; simpl; rewrite E; auto.
Qed.

Lemma own_replace_other {V} (o : Obj.t V) k k' v :
  k <> k' -> Obj.own (Obj.replace o k v) k' = Obj.own o k'.
Proof.
  intros Hk. induction o as [|[k0 v0] o IH]; simpl; auto.
  destruct (String.eqb k0 k) eqn:E; simpl.
  - apply String.eqb_eq in E. subst k0.
    apply String.eqb_neq in Hk. now rewrite Hk.
  - now rewrite IH.
Qed.

Lemma keys_replace {V} (o : Obj.t V) k v :
  Obj.keys (Obj.replace o k v) = Obj.keys o.
Proof.
  induction o as [|[k' v'] o IH]; simpl; auto.
  destruct (String.eqb k' k); simpl; [reflexivity|]. now rewrite IH.
Qed.

Lemma place_Permutation {V} n k v (o : Obj.t V) :
  Permutation (Obj.place n k v o) ((k, v) :: o).
Proof.
  induction o as [|[k' v'] o IH]; simpl; auto.
  destruct (Obj.arrayIndex k') as [m|]; auto.
  destruct (m <=? n); auto.
  apply perm_trans with ((k', v') :: (k, v) :: o); [now apply perm_skip|].
  apply perm_swap.
Qed.

Lemma own_place_same {V} n k v (o : Obj.t V) :
  Obj.own o k = None -> Obj.own (Obj.place n k v o) k = Some v.
Proof.
  induction o as [|[k' v'] o IH]; simpl.
  - now rewrite String.eqb_refl.
  - destruct (String.eqb k' k) eqn:E; [discriminate|]. intros H.
    destruct (Obj.arrayIndex k') as [m|]; [destruct (m <=? n)|]; simpl;
      rewrite ?E, ?String.eqb_refl; auto.
Qed.

Lemma own_place_other {V} n k k' v (o : Obj.t V) :
  k <> k' -> Obj.own (Obj.place n k v o) k' = Obj.own o k'.
Proof.
  intros Hk. apply String.eqb_neq in Hk.
  induction o as [|[k0 v0] o IH]; simpl.
  - now rewrite Hk.
  - destruct (Obj.arrayIndex k0) as [m|]; [destruct (m <=? n)|]; simpl;
      rewrite ?Hk, ?IH; auto.
Qed.

Lemma own_set_same {V} (o : Obj.t V) k v :
  Obj.own (Obj.set o k v) k = Some v.
Proof.
  unfold Obj.set. destruct (Obj.own o k) as [c|] eqn:E.
  - eapply own_replace_same; eauto.
  - destruct (Obj.arrayIndex k) as [n|].
    + now apply own_place_same.
    + rewrite own_app, E. simpl. now rewrite String.eqb_refl.
Qed.

Lemma own_set_other {V} (o : Obj.t V) k k' v :
  k <> k' -> Obj.own (Obj.set o k v) k' = Obj.own o k'.
Proof.
  intros Hk. unfold Obj.set. destruct (Obj.own o k) as [c|] eqn:E.
  - now apply own_replace_other.
  - destruct (Obj.arrayIndex k) as [n|].
    + now apply own_place_other.
    + rewrite own_app. destruct (Obj.own o k'); auto. simpl.
      apply String.eqb_neq in Hk. now rewrite Hk.
Qed.

Lemma own_In {V} (o : Obj.t V) k v : Obj.own o k = Some v -> In (k, v) o.
Proof.
  induction o as [|[k' v'] o IH]; simpl; [discriminate|].
  destruct (String.eqb k' k) eqn:E.
  - apply String.eqb_eq in E. intros H. inversion H. subst. now left.
  - intros H. right. auto.
Qed.

Lemma own_None_keys {V} (o : Obj.t V) k :
  Obj.own o k = None <-> ~ In k (Obj.keys o).
Proof.
  induction o as [|[k' v'] o IH]; simpl.
  - tauto.
  - destruct (String.eqb k' k) eqn:E.
    + apply String.eqb_eq in E. split; [discriminate|]. intros H. tauto.
    + apply String.eqb_neq in E. rewrite IH. tauto.
Qed.

Lemma In_own {V} (o : Obj.t V) k v :
  NoDup (Obj.keys o) -> In (k, v) o -> Obj.own o k = Some v.
Proof.
  induction o as [|[k' v'] o IH]; simpl; [tauto|].
  intros Hnd [H|H].
  - inversion H. subst. now rewrite String.eqb_refl.
  - inversion Hnd as [|? ? Hni Hnd']. subst.
    destruct (String.eqb k' k) eqn:E.
    + apply String.eqb_eq in E. subst k'.
      exfalso. apply Hni. change k with (fst (k, v)). now apply in_map.
    + auto.
Qed.

(** The names after an assignment: those before it, and the new one if it
    is new. *)
Lemma keys_set {V} (o : Obj.t V) k v :
  Permutation (Obj.keys (Obj.set o k v))
    (match Obj.own o k with
     | Some _ => Obj.keys o
     | None => k :: Obj.keys o
     end).
Proof.
  unfold Obj.set. destruct (Obj.own o k) as [c|].
  - now rewrite keys_replace.
  - destruct (Obj.arrayIndex k) as [n|].
    + unfold Obj.keys. change (k :: map fst o) with (map fst ((k, v) :: o)).
      apply Permutation_map, place_Permutation.
    + unfold Obj.keys. rewrite map_app. simpl.
      apply Permutation_sym, Permutation_cons_append.
Qed.

Lemma NoDup_keys_set {V} (o : Obj.t V) k v :
  NoDup (Obj.keys o) -> NoDup (Obj.keys (Obj.set o k v)).
Proof.
  intros H. eapply Permutation_NoDup; [apply Permutation_sym, keys_set|].
  destruct (Obj.own o k) as [c|] eqn:E; auto.
  constructor; auto. now apply own_None_keys.
Qed.

Lemma NoDup_keys_entries {V} (o : Obj.t V) : NoDup (Obj.keys o) -> NoDup o.
Proof. apply NoDup_map_inv. Qed.

(** Two dictionaries with the same own properties hold the same entries. *)
Lemma same_own_Permutation {V} (o1 o2 : Obj.t V) :
  NoDup (Obj.keys o1) -> NoDup (Obj.keys o2) ->
  (forall k, Obj.own o1 k = Obj.own o2 k) -> Permutation o1 o2.
Proof.
  intros H1 H2 Hget.
  apply NoDup_Permutation; auto using NoDup_keys_entries.
  intros [k v]. split; intros H.
  - apply own_In. rewrite <- Hget. now apply In_own.
  - apply own_In. rewrite Hget. now apply In_own.
Qed.

(** *** The order of enumeration *)

Lemma before_last k k' : Obj.arrayIndex k = None -> Obj.before k' k.
Proof.
  intros H. unfold Obj.before. rewrite H.
  now destruct (Obj.arrayIndex k').
Qed.

Lemma sorted_snoc {A} (R : A -> A -> Prop) l x :
  StronglySorted R l -> Forall (fun y => R y x) l ->
  StronglySorted R (l ++ [x]).
Proof.
  induction l as [|a l IH]; simpl; intros Hs Hf.
  - repeat constructor.
  - apply StronglySorted_inv in Hs. destruct Hs as [Hs Ha].
    inversion Hf; subst. constructor; auto.
    apply Forall_app. split; auto.
Qed.

Lemma sorted_middle {A} (R : A -> A -> Prop) l1 x l2 :
  StronglySorted R (l1 ++ x :: l2) -> Forall (fun y => R y x) l1.
Proof.
  induction l1 as [|a l1 IH]; simpl; intros Hs; [constructor|].
  apply StronglySorted_inv in Hs. destruct Hs as [Hs Ha].
  constructor; auto.
  rewrite Forall_forall in Ha. apply Ha, in_elt.
Qed.

Lemma ordered_place {V} n k v (o : Obj.t V) :
  Obj.arrayIndex k = Some n -> Obj.ordered o ->
  Obj.ordered (Obj.place n k v o).
Proof.
  intros Hk. unfold Obj.ordered.
  induction o as [|[k' v'] o IH]; simpl; intros Hs.
  - repeat constructor.
  - apply StronglySorted_inv in Hs. destruct Hs as [Hs Ha].
    destruct (Obj.arrayIndex k') as [m|] eqn:Ek';
      [destruct (m <=? n) eqn:L|]; simpl.
    + constructor; [now apply IH|].
      eapply Permutation_Forall.
      * apply Permutation_sym.
        apply (Permutation_map fst (place_Permutation n k v o)).
      * simpl. constructor; auto.
        unfold Obj.before. rewrite Ek', Hk. now apply Z.leb_le.
    + apply Z.leb_gt in L. constructor; [now constructor|].
      constructor.
      * unfold Obj.before. rewrite Ek', Hk. lia.
      * rewrite Forall_forall in *. intros x Hx. specialize (Ha x Hx).
        unfold Obj.before in *. rewrite Hk. rewrite Ek' in Ha.
        destruct (Obj.arrayIndex x); auto. lia.
    + constructor; [now constructor|].
      constructor.
      * unfold Obj.before. now rewrite Ek', Hk.
      * rewrite Forall_forall in *. intros x Hx. specialize (Ha x Hx).
        unfold Obj.before in *. rewrite Hk. rewrite Ek' in Ha.
        destruct (Obj.arrayIndex x); auto. contradiction.
Qed.

Lemma ordered_set {V} (o : Obj.t V) k v :
  Obj.ordered o -> Obj.ordered (Obj.set o k v).
Proof.
  intros Ho. unfold Obj.set. destruct (Obj.own o k) as [c|].
  - unfold Obj.ordered. now rewrite keys_replace.
  - destruct (Obj.arrayIndex k) as [n|] eqn:Ek.
    + now apply ordered_place.
    + unfold Obj.ordered, Obj.keys. rewrite map_app. simpl.
      apply sorted_snoc; auto.
      apply Forall_forall. intros x _. now apply before_last.
Qed.

(** A new name that comes after every name of the object goes last. *)
Lemma place_last {V} n k v (o : Obj.t V) :
  Obj.arrayIndex k = Some n ->
  Forall (fun k' => Obj.before k' k) (Obj.keys o) ->
  Obj.place n k v o = o ++ [(k, v)].
Proof.
  intros Hk. induction o as [|[k' v'] o IH]; simpl; intros Hf; auto.
  inversion Hf as [|? ? Hb Hf']; subst.
  unfold Obj.before in Hb. rewrite Hk in Hb.
  destruct (Obj.arrayIndex k') as [m|]; [|contradiction].
  apply Z.leb_le in Hb. rewrite Hb. now rewrite IH.
Qed.

Lemma set_last {V} (o : Obj.t V) k v :
  Obj.own o k = None ->
  Forall (fun k' => Obj.before k' k) (Obj.keys o) ->
  Obj.set o k v = o ++ [(k, v)].
Proof.
  intros Ho Hf. unfold Obj.set. rewrite Ho.
  destruct (Obj.arrayIndex k) as [n|] eqn:Ek; auto.
  now apply place_last.
Qed.

(** *** The fold *)

Section AggregatorFacts.

Variable DateValue : string -> TimeValue.

Local Abbreviation stamp := (updated DateValue).
Local Abbreviation latest := (latestProgressByAgent DateValue).

Lemma timed_not_null item : timed DateValue item -> updated_at item <> None.
Proof.
  intros [t Ht] Hn. unfold updated in Ht. rewrite Hn in Ht. discriminate.
Qed.

Lemma null_untimed item : updated_at item = None -> stamp item = None.
Proof. intros H. unfold updated. now rewrite H. Qed.

(** [x > new Date('')] is [false] for every [x]. *)
Lemma date_gt_invalid a : date_gt a (newDate DateValue (or_empty None)) = false.
Proof. unfold newDate. simpl. now destruct a. Qed.

(** Under the name of a member of [Object.prototype] the [reduce] assigns
    nothing: the member is truthy and the date it is compared with is
    invalid. *)
Lemma reducer_inherited acc item :
  Obj.get acc (agent_name item) = Obj.Inherited ->
  reducer DateValue acc item = acc.
Proof. intros H. unfold reducer. now rewrite H, date_gt_invalid. Qed.

Lemma reducer_other acc item n :
  agent_name item <> n ->
  Obj.own (reducer DateValue acc item) n = Obj.own acc n.
Proof.
  intros Hn. unfold reducer.
  destruct (Obj.get acc (agent_name item)) as [|cur|].
  - auto using own_set_other.
  - destruct (date_gt _ _); auto using own_set_other.
  - now rewrite date_gt_invalid.
Qed.

Lemma reducer_same acc item :
  Obj.own (reducer DateValue acc item) (agent_name item) =
  match Obj.own acc (agent_name item) with
  | None => if Obj.inherited (agent_name item) then None else Some item
  | Some cur =>
      if date_gt (stamp item) (stamp cur) then Some item else Some cur
  end.
Proof.
  unfold reducer, Obj.get.
  destruct (Obj.own acc (agent_name item)) as [cur|] eqn:E.
  - destruct (date_gt _ _); auto using own_set_same.
  - destruct (Obj.inherited (agent_name item)).
    + now rewrite date_gt_invalid.
    + apply own_set_same.
Qed.

Lemma reducer_NoDup acc item :
  NoDup (Obj.keys acc) -> NoDup (Obj.keys (reducer DateValue acc item)).
Proof.
  intros H. unfold reducer.
  destruct (Obj.get acc (agent_name item)) as [|cur|];
    try destruct (date_gt _ _); auto using NoDup_keys_set.
Qed.

Lemma reducer_ordered acc item :
  Obj.ordered acc -> Obj.ordered (reducer DateValue acc item).
Proof.
  intros H. unfold reducer.
  destruct (Obj.get acc (agent_name item)) as [|cur|];
    try destruct (date_gt _ _); auto using ordered_set.
Qed.

Lemma latest_snoc l item :
  latest (l ++ [item]) = reducer DateValue (latest l) item.
Proof. unfold latestProgressByAgent. now rewrite fold_left_app. Qed.

Lemma latest_NoDup l : NoDup (Obj.keys (latest l)).
Proof.
  induction l as [|item l IH] using rev_ind.
  - constructor.
  - rewrite latest_snoc. now apply reducer_NoDup.
Qed.

(** The entries are in the order of enumeration. *)
Lemma latest_ordered l : Obj.ordered (latest l).
Proof.
  induction l as [|item l IH] using rev_ind.
  - constructor.
  - rewrite latest_snoc. now apply reducer_ordered.
Qed.

(** No entry is filed under the name of a member of [Object.prototype]. *)
Lemma latest_inherited l n :
  Obj.inherited n = true -> Obj.own (latest l) n = None.
Proof.
  intros Hn. induction l as [|x l IH] using rev_ind; [reflexivity|].
  rewrite latest_snoc.
  destruct (string_dec (agent_name x) n) as [E|E].
  - subst n. now rewrite reducer_same, IH, Hn.
  - now rewrite reducer_other.
Qed.

Lemma latest_own_not_inherited l n c :
  Obj.own (latest l) n = Some c -> Obj.inherited n = false.
Proof.
  intros H. destruct (Obj.inherited n) eqn:E; auto.
  rewrite latest_inherited in H by assumption. discriminate.
Qed.

(** Every agent of the input has an entry, unless it is named like a member
    of [Object.prototype]. *)
Lemma latest_defined l item :
  In item l -> Obj.inherited (agent_name item) = false ->
  exists c, Obj.own (latest l) (agent_name item) = Some c.
Proof.
  induction l as [|x l IH] using rev_ind; [intros []|].
  intros Hin Hi. rewrite latest_snoc.
  destruct (string_dec (agent_name x) (agent_name item)) as [E|E].
  - rewrite <- E, reducer_same. rewrite <- E in Hi. rewrite Hi.
    destruct (Obj.own (latest l) (agent_name x)) as [cur|]; eauto.
    destruct (date_gt (stamp x) (stamp cur)); eauto.
  - rewrite reducer_other by assumption.
    apply in_app_or in Hin. destruct Hin as [Hin|[Hin|[]]]; auto.
    subst. contradiction.
Qed.

(** An entry is a row of the input, filed under its own agent name. *)
Lemma latest_member l n c :
  Obj.own (latest l) n = Some c -> In c l /\ agent_name c = n.
Proof.
  revert n c. induction l as [|x l IH] using rev_ind; intros n c.
  - discriminate.
  - rewrite latest_snoc.
    destruct (string_dec (agent_name x) n) as [E|E].
    + subst n. rewrite reducer_same.
      destruct (Obj.own (latest l) (agent_name x)) as [cur|] eqn:G.
      * destruct (IH _ _ G) as [Hin Hn].
        destruct (date_gt _ _); intros H; inversion H; subst;
          rewrite ?in_app_iff; simpl; auto.
      * destruct (Obj.inherited (agent_name x)); [discriminate|].
        intros H. inversion H. subst. rewrite in_app_iff. simpl. auto.
    + rewrite reducer_other by assumption. intros H.
      destruct (IH _ _ H). rewrite in_app_iff. auto.
Qed.

(** On rows that all have a timestamp, the entry of an agent carries the
    greatest timestamp among the rows of that agent. *)
Lemma latest_greatest l :
  Forall (timed DateValue) l ->
  forall n c, Obj.own (latest l) n = Some c ->
  forall r, In r l -> agent_name r = n -> time_le (stamp r) (stamp c).
Proof.
  induction l as [|x l IH] using rev_ind; intros Ht n c Hget r Hr Hn.
  - destruct Hr.
  - apply Forall_app in Ht. destruct Ht as [Htl Htx].
    inversion Htx as [|? ? [tx Hx] _]. subst.
    specialize (IH Htl).
    pose proof (latest_own_not_inherited _ _ _ Hget) as Hi.
    rewrite latest_snoc in Hget.
    apply in_app_or in Hr.
    destruct (string_dec (agent_name x) (agent_name r)) as [E|E].
    + rewrite <- E, reducer_same in Hget.
      destruct (Obj.own (latest l) (agent_name x)) as [cur|] eqn:G.
      * assert (Hcur : forall r', In r' l -> agent_name r' = agent_name x ->
                  time_le (stamp r') (stamp cur)) by (intros; eapply IH; eauto).
        destruct (latest_member _ _ _ G) as [Hcin _].
        rewrite Forall_forall in Htl. destruct (Htl _ Hcin) as [tc Hc].
        unfold date_gt in Hget. rewrite Hx, Hc in Hget.
        destruct (tc <? tx) eqn:L; inversion Hget; subst c.
        -- apply Z.ltb_lt in L.
           destruct Hr as [Hr|[Hr|[]]].
           ++ specialize (Hcur _ Hr (eq_sym E)).
              unfold time_le in *. rewrite Hx. rewrite Hc in Hcur.
              destruct (stamp r); [lia|contradiction].
           ++ subst r. unfold time_le. rewrite Hx. lia.
        -- apply Z.ltb_ge in L.
           destruct Hr as [Hr|[Hr|[]]].
           ++ apply Hcur; auto.
           ++ subst r. unfold time_le. rewrite Hx, Hc. lia.
      * rewrite E, Hi in Hget. inversion Hget. subst c.
        destruct Hr as [Hr|[Hr|[]]].
        -- destruct (latest_defined _ _ Hr Hi) as [c' Hc'].
           rewrite <- E in Hc'. congruence.
        -- subst r. unfold time_le. rewrite Hx. lia.
    + rewrite reducer_other in Hget by assumption.
      destruct Hr as [Hr|[Hr|[]]]; [eauto|]. subst. contradiction.
Qed.

End AggregatorFacts.

(** *** Latest wins, whatever the order *)

Section AggregatorClaims.

Variable DateValue : string -> TimeValue.

Local Abbreviation stamp := (updated DateValue).
Local Abbreviation latest := (latestProgressByAgent DateValue).


Lemma time_le_antisym a b : time_le a b -> time_le b a -> a = b.
Proof.
  destruct a, b; simpl; try tauto. intros. f_equal. lia.
Qed.


(** C2, as the code has it.  Let every row of [l] have a timestamp, and let
    the rows of one agent that attain that agent's greatest [Date] (the
    instant of [updated_at] in whole milliseconds) all be the same row.  Then
    every reordering [l'] of [l] gives the same lookup
    [latestProgressByAgent[n]] for every name [n], and [mappedProgress] holds
    the same elements, possibly in another order. *)
Theorem aggregation_order_independent (l l' : list DatabaseAgentProgress) :
  Permutation l l' ->
  Forall (timed DateValue) l ->
  (forall a b, In a l -> In b l -> agent_name a = agent_name b ->
     stamp a = stamp b ->
     (forall r, In r l -> agent_name r = agent_name a ->
                time_le (stamp r) (stamp a)) ->
     a = b) ->
  (forall n, Obj.get (latest l) n = Obj.get (latest l') n) /\
  Permutation (mappedProgress DateValue l) (mappedProgress DateValue l').
Proof.
  intros Hp Ht Htie.
  assert (Ht' : Forall (timed DateValue) l') by
    (eapply Permutation_Forall; eauto).
  assert (Hown : forall n, Obj.own (latest l) n = Obj.own (latest l') n).
  { intros n.
    destruct (Obj.own (latest l) n) as [c|] eqn:G.
    - destruct (latest_member DateValue _ _ _ G) as [Hcin Hcn].
      pose proof (latest_own_not_inherited DateValue _ _ _ G) as Hi.
      assert (Hcin' : In c l') by (eapply Permutation_in; eauto).
      rewrite <- Hcn in Hi.
      destruct (latest_defined DateValue _ _ Hcin' Hi) as [c' G'].
      rewrite Hcn in G'. rewrite G'. f_equal.
      destruct (latest_member DateValue _ _ _ G') as [Hc'in' Hc'n].
      assert (Hc'in : In c' l)
        by (eapply Permutation_in; [apply Permutation_sym|]; eauto).
      pose proof (latest_greatest DateValue _ Ht _ _ G c' Hc'in Hc'n) as H1.
      pose proof (latest_greatest DateValue _ Ht' _ _ G' c Hcin' Hcn) as H2.
      apply Htie; auto.
      + congruence.
      + now apply time_le_antisym.
      + intros r Hr Hrn.
        apply (latest_greatest DateValue _ Ht _ _ G r Hr). congruence.
    - destruct (Obj.own (latest l') n) as [c'|] eqn:G'; auto.
      destruct (latest_member DateValue _ _ _ G') as [Hc'in' Hc'n].
      pose proof (latest_own_not_inherited DateValue _ _ _ G') as Hi.
      assert (Hc'in : In c' l)
        by (eapply Permutation_in; [apply Permutation_sym|]; eauto).
      rewrite <- Hc'n in Hi.
      destruct (latest_defined DateValue _ _ Hc'in Hi) as [c G''].
      congruence. }
  split; [intros n; apply get_same_own, Hown|].
  unfold mappedProgress, Obj.values.
  do 2 apply Permutation_map.
  apply same_own_Permutation; auto using latest_NoDup.
Qed.

(** C10, as the code has it.  Every element of the hook's output is the image
    of a row the fold kept; it carries that row's agent name; a [null] status
    becomes ["waiting"], a [null] progress becomes [0], a [null] current task
    becomes [undefined]; a status that is a non-empty string, known or not,
    is passed on as it is, and so is a progress that is a number; an empty
    status string is falsy and becomes ["waiting"] too. *)
Theorem mapped_defaults (data : list DatabaseAgentProgress)
    (x : AgentProgress) :
  In x (mappedProgress DateValue data) ->
  exists item,
    In item data /\
    Obj.get (latest data) (agent_name item) = Obj.Own item /\
    x = toAgentProgress item /\
    name x = agent_name item /\
    (status item = None -> ap_status x = "waiting") /\
    (progress item = None -> ap_progress x = 0) /\
    (current_task item = None -> currentTask x = None) /\
    (forall s, status item = Some s -> s <> "" -> ap_status x = s) /\
    (status item = Some "" -> ap_status x = "waiting") /\
    (forall p, progress item = Some p -> ap_progress x = p).
Proof.
  unfold mappedProgress, Obj.values. intros Hx.
  apply in_map_iff in Hx. destruct Hx as [item [Hx Hin]].
  apply in_map_iff in Hin. destruct Hin as [[k v] [Hv Hin]].
  simpl in Hv. subst v x.
  apply In_own in Hin; [|apply latest_NoDup].
  destruct (latest_member DateValue _ _ _ Hin) as [Hd Hk]. subst k.
  apply get_Own in Hin.
  exists item. repeat split; auto; simpl.
  - intros H. now rewrite H.
  - intros H. now rewrite H.
  - intros H. now rewrite H.
  - intros s H Hs. rewrite H. simpl.
    apply String.eqb_neq in Hs. now rewrite Hs.
  - intros H. now rewrite H.
  - intros p H. rewrite H. simpl. destruct (p =? 0) eqn:E; auto.
    apply Z.eqb_eq in E. auto.
Qed.

End AggregatorClaims.

(** *** The winner of a tie *)

(** An entry stays as long as no later row of its agent is strictly later. *)
Lemma entry_stays DateValue l acc n c :
  Obj.own acc n = Some c ->
  (forall x, In x l -> agent_name x = n ->
             date_gt (updated DateValue x) (updated DateValue c) = false) ->
  Obj.own (fold_left (reducer DateValue) l acc) n = Some c.
Proof.
  revert acc. induction l as [|x l IH]; intros acc Hget Hle; simpl; auto.
  apply IH.
  - destruct (string_dec (agent_name x) n) as [E|E].
    + subst n. rewrite reducer_same, Hget, Hle; simpl; auto.
    + now rewrite reducer_other.
  - intros y Hy. apply Hle. now right.
Qed.



(** *** Rows without a timestamp *)

(** An entry whose [Date] is invalid is never replaced: [x > NaN] is
    [false] for every [x]. *)
Lemma untimed_entry_stays DateValue l acc n c :
  Obj.own acc n = Some c ->
  updated DateValue c = None ->
  Obj.own (fold_left (reducer DateValue) l acc) n = Some c.
Proof.
  intros Hget Hc. apply entry_stays; auto.
  intros x _ _. rewrite Hc. unfold date_gt.
  now destruct (updated DateValue x).
Qed.

(** A row with a [null] [updated_at] that is the first row of the input keeps
    its place whatever follows it. *)
Lemma untimed_first_wins DateValue a l :
  updated_at a = None ->
  Obj.inherited (agent_name a) = false ->
  Obj.get (latestProgressByAgent DateValue (a :: l)) (agent_name a) =
  Obj.Own a.
Proof.
  intros Ha Hi. apply get_Own. unfold latestProgressByAgent. simpl.
  apply untimed_entry_stays.
  - rewrite reducer_same, Hi. reflexivity.
  - now apply null_untimed.
Qed.

(** *** The aggregation on concrete rows *)



(** C2 fails on the code.  Two rows of one agent with the same [updated_at]:
    the row that comes first in the input is kept, so the two orders of the
    same two rows give different states. *)
Lemma tie_follows_input_order :
  Permutation [browser_early; browser_tie] [browser_tie; browser_early] /\
  updated utcTime browser_early = updated utcTime browser_tie /\
  Obj.get (latestProgressByAgent utcTime [browser_early; browser_tie])
    "Browser Agent" = Obj.Own browser_early /\
  Obj.get (latestProgressByAgent utcTime [browser_tie; browser_early])
    "Browser Agent" = Obj.Own browser_tie /\
  mappedProgress utcTime [browser_early; browser_tie] <>
  mappedProgress utcTime [browser_tie; browser_early].
Proof.
  split; [apply perm_swap|].
  repeat split; try reflexivity.
  vm_compute. discriminate.
Qed.

(** Three rows with three different timestamps, in two orders. *)
Lemma aggregation_order_independent_witness :
  Permutation [browser_early; writer_paused; browser_late]
              [writer_paused; browser_early; browser_late] /\
  (forall n,
     Obj.get (latestProgressByAgent utcTime
                [browser_early; writer_paused; browser_late]) n =
     Obj.get (latestProgressByAgent utcTime
                [writer_paused; browser_early; browser_late]) n) /\
  Permutation
    (mappedProgress utcTime [browser_early; writer_paused; browser_late])
    (mappedProgress utcTime [writer_paused; browser_early; browser_late]).
Proof.
  split; [apply perm_swap|].
  apply (aggregation_order_independent utcTime
           [browser_early; writer_paused; browser_late]
           [writer_paused; browser_early; browser_late]).
  - apply perm_swap.
  - repeat constructor; eexists; reflexivity.
  - intros a b [Ha|[Ha|[Ha|[]]]] [Hb|[Hb|[Hb|[]]]] Hn Hs _; subst a b;
      try reflexivity; try discriminate Hn; discriminate Hs.
Defined.

(** C3 on the code.  The row without [updated_at] and a row of the same agent
    with a timestamp: whichever comes first is kept, so the row without a
    timestamp wins when it comes first. *)
Theorem null_timestamp_row_is_kept :
  updated_at browser_null = None /\
  timed utcTime browser_late /\
  Obj.get (latestProgressByAgent utcTime [browser_null; browser_late])
    "Browser Agent" = Obj.Own browser_null /\
  Obj.get (latestProgressByAgent utcTime [browser_late; browser_null])
    "Browser Agent" = Obj.Own browser_late /\
  mappedProgress utcTime [browser_null; browser_late] =
    [mkAgent "Browser Agent" "waiting" 0 None].
Proof.
  split; [reflexivity|]. split; [eexists; reflexivity|].
  repeat split; reflexivity.
Qed.

(** C10 fails on the code for one status: the empty string is not [null], and
    it does not pass through. *)
Lemma empty_status_is_defaulted :
  status writer_blank = Some "" /\
  In (toAgentProgress writer_blank) (mappedProgress utcTime [writer_blank]) /\
  ap_status (toAgentProgress writer_blank) = "waiting" /\
  ap_status (toAgentProgress writer_blank) <> "".
Proof.
  split; [reflexivity|]. split; [left; reflexivity|].
  split; [reflexivity|]. vm_compute. discriminate.
Qed.

(** The row of the browser agent with [null] in every optional field. *)
Lemma mapped_defaults_witness :
  In (mkAgent "Browser Agent" "waiting" 0 None)
     (mappedProgress utcTime [browser_null; writer_paused]) /\
  exists item,
    In item [browser_null; writer_paused] /\
    Obj.get (latestProgressByAgent utcTime [browser_null; writer_paused])
      (agent_name item) = Obj.Own item /\
    mkAgent "Browser Agent" "waiting" 0 None = toAgentProgress item /\
    "Browser Agent" = agent_name item /\
    (status item = None -> "waiting" = "waiting") /\
    (progress item = None -> 0 = 0) /\
    (current_task item = None -> @None string = None) /\
    (forall s, status item = Some s -> s <> "" -> "waiting" = s) /\
    (status item = Some "" -> "waiting" = "waiting") /\
    (forall p, progress item = Some p -> 0 = p).
Proof.
  split; [left; reflexivity|].
  apply (mapped_defaults utcTime [browser_null; writer_paused]
           (mkAgent "Browser Agent" "waiting" 0 None)).
  left. reflexivity.
Defined.

(** ** Part II.  Results on the machine *)

Lemma reads_app l1 l2 : reads (l1 ++ l2) = reads l1 ++ reads l2.
Proof.
  induction l1 as [|[t a] l1 IH]; simpl; auto.
  destruct a; simpl; now rewrite ?IH.
Qed.

Lemma writes_app l1 l2 : writes (l1 ++ l2) = writes l1 ++ writes l2.
Proof.
  induction l1 as [|[t a] l1 IH]; simpl; auto.
  destruct a; simpl; now rewrite ?IH.
Qed.

Lemma find_remove_other a b l :
  a <> b -> find_request a (remove_request b l) = find_request a l.
Proof.
  intros Hab. induction l as [|[r q] l IH]; simpl; auto.
  destruct (Nat.eqb r b) eqn:Eb.
  - apply Nat.eqb_eq in Eb. subst r.
    destruct (Nat.eqb b a) eqn:Ea; auto.
    apply Nat.eqb_eq in Ea. congruence.
  - simpl. now rewrite IH.
Qed.

Lemma find_request_app req l l' q :
  find_request req l = Some q -> find_request req (l ++ l') = Some q.
Proof.
  induction l as [|[r q'] l IH]; simpl; [discriminate|].
  destruct (Nat.eqb r req); auto.
Qed.

Lemma find_remove_interval iv l : find_interval iv (remove_interval iv l) = None.
Proof.
  induction l as [|x l IH]; simpl; auto.
  destruct (Nat.eqb (iv_id x) iv) eqn:E; simpl; auto. now rewrite E.
Qed.

Lemma remove_nth_length {A} i (l : list A) :
  (List.length (remove_nth i l) <= List.length l)%nat.
Proof.
  revert i. induction l as [|x l IH]; intros [|i]; simpl; auto.
  specialize (IH i). lia.
Qed.

Lemma duration_nonneg evs : 0 <= duration evs.
Proof.
  induction evs as [|e evs IH]; simpl; [lia|].
  destruct e; simpl; lia.
Qed.

Lemma elapse_nonneg e : 0 <= elapse e.
Proof. destruct e; simpl; lia. Qed.

(** *** Operations that leave the fetch state alone *)

Lemma calm_refl h : calm h h.
Proof. unfold calm. auto. Qed.

Lemma calm_trans h1 h2 h3 : calm h1 h2 -> calm h2 h3 -> calm h1 h3.
Proof. unfold calm. intuition congruence. Qed.

Lemma quiet_refl h : quiet h h.
Proof. unfold quiet, calm. auto 10. Qed.

Lemma quiet_trans h1 h2 h3 : quiet h1 h2 -> quiet h2 h3 -> quiet h1 h3.
Proof. unfold quiet, calm. intuition congruence. Qed.

Lemma quiet_calm h h' : quiet h h' -> calm h h'.
Proof. unfold quiet. tauto. Qed.

Ltac quiet_op :=
  unfold quiet, calm; simpl;
  rewrite ?reads_app, ?writes_app; simpl; rewrite ?app_nil_r;
  auto 10.

Lemma quiet_drop_channel h : quiet h (drop_channel h).
Proof. unfold drop_channel. destruct (channelRef h); quiet_op. Qed.

Lemma quiet_effect_cleanup iv h : quiet h (effect_cleanup iv h).
Proof.
  unfold effect_cleanup.
  eapply quiet_trans; [apply (quiet_drop_channel h)|]. quiet_op.
Qed.

Lemma quiet_run_cleanup h : quiet h (run_cleanup h).
Proof.
  unfold run_cleanup. destruct (cleanup h) as [iv|]; [|apply quiet_refl].
  eapply quiet_trans; [apply (quiet_effect_cleanup iv h)|]. quiet_op.
Qed.

Lemma quiet_open_channel q h : quiet h (open_channel q h).
Proof. unfold open_channel. quiet_op. Qed.

Lemma quiet_start_polling q h : quiet h (start_polling q h).
Proof. unfold start_polling. quiet_op. Qed.

Lemma quiet_console_error msg detail h : quiet h (console_error msg detail h).
Proof. unfold console_error. quiet_op. Qed.

Lemma quiet_set_deps d h : quiet h (set_deps d h).
Proof. quiet_op. Qed.

Lemma quiet_set_intervals l h : quiet h (set_intervals l h).
Proof. quiet_op. Qed.

Lemma calm_setAgentProgress v h : calm h (setAgentProgress v h).
Proof.
  unfold setAgentProgress. destruct (mounted h); [|apply calm_refl].
  unfold calm. simpl. rewrite reads_app. simpl. now rewrite app_nil_r.
Qed.

Lemma calm_on_change q h : calm h (on_change q h).
Proof.
  unfold on_change, calm. simpl. rewrite reads_app. simpl.
  now rewrite app_nil_r.
Qed.

Lemma calm_set_timeouts l h : calm h (set_timeouts l h).
Proof. unfold calm. auto. Qed.

Lemma calm_set_inflight l h : calm h (set_inflight l h).
Proof. unfold calm. auto. Qed.

Lemma calm_set_mounted b h : calm h (set_mounted b h).
Proof. unfold calm. auto. Qed.

(** The two ways a call of [fetchProgress] goes. *)
Lemma fetchProgress_cases q h :
  (clock h - lastFetchRef h < 500 /\ fetchProgress q h = h) \/
  (500 <= clock h - lastFetchRef h /\
   fetchProgress q h =
   emit (StoreRead (fresh h) q)
     (set_inflight (inflight h ++ [(fresh h, q)])
        (set_fresh (S (fresh h)) (set_lastFetchRef (clock h) h)))).
Proof.
  unfold fetchProgress.
  destruct (clock h - lastFetchRef h <? 500) eqn:E.
  - left. apply Z.ltb_lt in E. auto.
  - right. apply Z.ltb_ge in E. auto.
Qed.

Lemma fetchProgress_reading q h : reading h (fetchProgress q h).
Proof.
  unfold reading.
  destruct (fetchProgress_cases q h) as [[Hg Hf]|[Hg Hf]]; rewrite Hf.
  - auto.
  - simpl. rewrite reads_app. simpl. auto.
Qed.

Lemma calm_reading h h' : calm h h' -> reading h h'.
Proof. unfold calm, reading. intuition. Qed.

Lemma calm_then_reading h1 h2 h3 : calm h1 h2 -> reading h2 h3 -> reading h1 h3.
Proof.
  unfold calm, reading. intros (Hc & Hl & Hr) (Hc' & H).
  rewrite Hc, Hl, Hr in *. auto.
Qed.

Lemma reading_then_calm h1 h2 h3 : reading h1 h2 -> calm h2 h3 -> reading h1 h3.
Proof.
  unfold calm, reading. intros (Hc & H) (Hc' & Hl & Hr).
  rewrite Hc', Hl, Hr. auto.
Qed.

Section MachineFacts.

Variable DateValue : string -> TimeValue.

Local Abbreviation next := (step DateValue).
Local Abbreviation after := (run DateValue).

Lemma run_app h evs1 evs2 :
  after h (evs1 ++ evs2) = after (after h evs1) evs2.
Proof. unfold run. apply fold_left_app. Qed.

Lemma effect_reading q h : reading h (effect q h).
Proof.
  unfold effect.
  destruct q as [q|]; [|apply calm_reading, calm_setAgentProgress].
  destruct (String.eqb q ""); [apply calm_reading, calm_setAgentProgress|].
  eapply reading_then_calm; [|apply quiet_calm, quiet_start_polling].
  eapply reading_then_calm; [|apply quiet_calm, quiet_open_channel].
  eapply calm_then_reading; [apply quiet_calm, quiet_drop_channel|].
  apply fetchProgress_reading.
Qed.

Lemma resume_calm res h : calm h (fst (fetchProgress_resume DateValue res h)).
Proof.
  unfold fetchProgress_resume, fetchProgress_try.
  destruct res as [[data|] [e|]|reason]; simpl;
    auto using calm_refl, calm_setAgentProgress, quiet_calm,
      quiet_console_error.
Qed.

Lemma resume_normal res h : snd (fetchProgress_resume DateValue res h) = Normal.
Proof.
  unfold fetchProgress_resume.
  destruct (fetchProgress_try DateValue res h) as [h' [reason|]]; reflexivity.
Qed.

(** A step that is not a step of the clock reads the store at most once. *)
Lemma step_reading h e :
  match e with
  | Advance dt => next h e = set_clock (clock h + Z.of_N dt) h
  | _ => reading h (next h e)
  end.
Proof.
  destruct e; simpl; auto.
  - destruct (negb (mounted h)); [apply calm_reading, calm_refl|].
    destruct (same_deps (deps h) queryId); [apply calm_reading, calm_refl|].
    eapply reading_then_calm; [|apply quiet_calm, quiet_set_deps].
    eapply calm_then_reading; [apply quiet_calm, quiet_run_cleanup|].
    apply effect_reading.
  - destruct (negb (mounted h)); [apply calm_reading, calm_refl|].
    apply calm_reading.
    eapply calm_trans; [apply quiet_calm, quiet_run_cleanup|].
    apply calm_set_mounted.
  - destruct (channelRef h); apply calm_reading;
      auto using calm_refl, calm_on_change.
  - destruct (channelRef h), error; apply calm_reading;
      auto using calm_refl, quiet_calm, quiet_console_error.
  - destruct (nth_error (timeouts h) i) as [[due q]|];
      [|apply calm_reading, calm_refl].
    destruct (due <=? clock h); [|apply calm_reading, calm_refl].
    eapply calm_then_reading; [apply calm_set_timeouts|].
    apply fetchProgress_reading.
  - destruct (find_interval iv (intervals h)) as [x|];
      [|apply calm_reading, calm_refl].
    destruct (iv_due x <=? clock h); [|apply calm_reading, calm_refl].
    eapply calm_then_reading; [apply quiet_calm, quiet_set_intervals|].
    apply fetchProgress_reading.
  - destruct (find_request req (inflight h)) as [q|];
      [|apply calm_reading, calm_refl].
    pose proof (resume_calm res
                  (set_inflight (remove_request req (inflight h)) h)) as Hc.
    pose proof (resume_normal res
                  (set_inflight (remove_request req (inflight h)) h)) as Hn.
    destruct (fetchProgress_resume DateValue res
                (set_inflight (remove_request req (inflight h)) h))
      as [h' k].
    simpl in Hc, Hn. subst k. apply calm_reading.
    eapply calm_trans; [apply calm_set_inflight|exact Hc].
Qed.

Lemma step_reads h e :
  clock (next h e) = clock h + elapse e /\
  ((reads (log (next h e)) = reads (log h) /\
    lastFetchRef (next h e) = lastFetchRef h) \/
   (reads (log (next h e)) = reads (log h) ++ [clock h] /\
    lastFetchRef (next h e) = clock h /\
    500 <= clock h - lastFetchRef h)).
Proof.
  pose proof (step_reading h e) as H.
  destruct e;
    try (unfold reading in H; simpl elapse; split; [lia|tauto]).
  rewrite H. simpl. auto.
Qed.

(** In a window shorter than 500ms the store is read at most once. *)
Lemma window_reads evs : forall h c0 n,
  c0 <= clock h ->
  clock h + duration evs < c0 + 500 ->
  (List.length (reads (log h)) = n \/
   (List.length (reads (log h)) = S n /\ c0 <= lastFetchRef h)) ->
  (List.length (reads (log (after h evs))) <= S n)%nat.
Proof.
  induction evs as [|e evs IH]; intros h c0 n Hc Hd Hn.
  - simpl. destruct Hn as [Hn|[Hn _]]; lia.
  - simpl. simpl in Hd.
    pose proof (duration_nonneg evs) as Hdn.
    pose proof (elapse_nonneg e) as Hen.
    destruct (step_reads h e) as [Hclk Hcase].
    apply (IH _ c0 n); [lia|lia|].
    destruct Hcase as [[Hr Hl]|[Hr [Hl Hg]]].
    + rewrite Hr, Hl. exact Hn.
    + rewrite Hr, Hl, length_app. simpl.
      destruct Hn as [Hn|[Hn Hlast]]; [right; split; lia|lia].
Qed.

(** [lastFetchRef] holds the time of the last read of the store, or [0]. *)
Lemma lastFetchRef_last_read t evs :
  lastFetchRef (after (init t) evs) = last (reads (log (after (init t) evs))) 0.
Proof.
  induction evs as [|e evs IH] using rev_ind; [reflexivity|].
  rewrite run_app. simpl.
  destruct (step_reads (after (init t) evs) e) as [_ [[Hr Hl]|[Hr [Hl _]]]].
  - now rewrite Hr, Hl.
  - rewrite Hr, Hl. now rewrite last_last.
Qed.

(** What a burst does on an open channel: it arms timers. *)
Lemma burst_arms evs : forall h c,
  channelRef h = Some c ->
  is_burst evs ->
  timeouts (after h evs) = timeouts h ++ armed (clock h) (ch_query c) evs /\
  reads (log (after h evs)) = reads (log h) /\
  inflight (after h evs) = inflight h /\
  agentProgress (after h evs) = agentProgress h.
Proof.
  induction evs as [|e evs IH]; intros h c Hc Hb.
  - simpl. now rewrite app_nil_r.
  - inversion Hb as [|? ? He Hb']. subst.
    destruct e; try contradiction.
    + change (after h (Advance dt :: evs))
        with (after (set_clock (clock h + Z.of_N dt) h) evs).
      destruct (IH (set_clock (clock h + Z.of_N dt) h) c Hc Hb')
        as (H1 & H2 & H3 & H4).
      rewrite H1, H2, H3, H4. simpl. auto.
    + change (after h (Notify tbl :: evs))
        with (after (next h (Notify tbl)) evs).
      assert (Hs : next h (Notify tbl) = on_change (ch_query c) h)
        by (simpl; now rewrite Hc).
      rewrite Hs.
      destruct (IH (on_change (ch_query c) h) c Hc Hb')
        as (H1 & H2 & H3 & H4).
      rewrite H1, H2, H3, H4. unfold on_change. simpl.
      rewrite reads_app, <- app_assoc. simpl. rewrite app_nil_r. auto.
Qed.

End MachineFacts.

(** *** The claims on the reconciliation loop *)

Section MachineClaims.

Variable DateValue : string -> TimeValue.

Local Abbreviation next := (step DateValue).
Local Abbreviation after := (run DateValue).

Lemma fetch_dropped q h :
  clock h - lastFetchRef h < 500 -> fetchProgress q h = h.
Proof.
  intros Hg. destruct (fetchProgress_cases q h) as [[_ H]|[H _]]; [exact H|lia].
Qed.

Lemma render_changed h new :
  mounted h = true ->
  same_deps (deps h) new = false ->
  next h (Render new) = set_deps (Some new) (effect new (run_cleanup h)).
Proof. intros Hm Hd. simpl. now rewrite Hm, Hd. Qed.

(** What a settled request does when the store answered with rows. *)
Lemma settle_rows h req q data :
  mounted h = true ->
  find_request req (inflight h) = Some q ->
  next h (Settle req (rows data)) =
  emit (SetAgentProgress (mappedProgress DateValue data))
    (set_agentProgress (mappedProgress DateValue data)
       (set_inflight (remove_request req (inflight h)) h)).
Proof.
  intros Hm Hf. unfold step. rewrite Hf. simpl.
  unfold setAgentProgress. simpl. now rewrite Hm.
Qed.

(** The effect keeps the owner mounted, the pending timers armed and the
    awaited requests awaited. *)
Lemma effect_keeps new h :
  mounted (effect new h) = mounted h /\
  timeouts (effect new h) = timeouts h /\
  forall req q, find_request req (inflight h) = Some q ->
                find_request req (inflight (effect new h)) = Some q.
Proof.
  assert (Hset : forall v,
            mounted (setAgentProgress v h) = mounted h /\
            timeouts (setAgentProgress v h) = timeouts h /\
            forall req q, find_request req (inflight h) = Some q ->
              find_request req (inflight (setAgentProgress v h)) = Some q).
  { intros v. unfold setAgentProgress.
    destruct (mounted h) eqn:E; simpl; rewrite ?E; auto. }
  unfold effect. destruct new as [q'|]; [|apply Hset].
  destruct (String.eqb q' ""); [apply Hset|].
  pose proof (quiet_drop_channel h) as (_ & Hi & _ & Hm & Ht & _).
  set (h0 := drop_channel h) in *.
  destruct (fetchProgress_cases q' h0) as [[_ Hf]|[_ Hf]]; rewrite Hf; simpl;
    rewrite Hm, Ht, Hi; repeat split; auto.
  intros. now apply find_request_app.
Qed.

(** C4, as the code has it.  There is no sequence number: every result that
    arrives with rows is written.  Of two awaited fetches [a] and [b], if
    [b] settles first and [a] after it, the visible state is [a]'s result,
    whichever of the two was started first. *)
Theorem last_settled_wins (h : Hook) (a b : nat) (qa qb : string)
    (dA dB : list DatabaseAgentProgress) :
  mounted h = true ->
  find_request a (inflight h) = Some qa ->
  find_request b (inflight h) = Some qb ->
  a <> b ->
  agentProgress (after h [Settle b (rows dB); Settle a (rows dA)]) =
  mappedProgress DateValue dA.
Proof.
  intros Hm Ha Hb Hab.
  change (after h [Settle b (rows dB); Settle a (rows dA)])
    with (next (next h (Settle b (rows dB))) (Settle a (rows dA))).
  rewrite (settle_rows h b qb dB Hm Hb).
  rewrite (settle_rows _ a qa dA); simpl; auto.
  now rewrite find_remove_other.
Qed.

(** C5, as the code has it.  The teardown of an open subscription removes
    the channel and clears the polling interval, and that is all it does:
    the pending 100ms timers stay armed and the awaited fetches stay awaited.
    There is no liveness check, so when [queryId] becomes [null] or changes, a
    fetch that was awaited at that moment and then settles with rows still
    writes [agentProgress].  After an unmount the state no longer changes. *)
Theorem teardown_leaves_fetches (h : Hook) (intervalId : nat) (c : Channel)
    (req : nat) (q : string) (data : list DatabaseAgentProgress) :
  mounted h = true ->
  cleanup h = Some intervalId ->
  channelRef h = Some c ->
  find_request req (inflight h) = Some q ->
  (channelRef (run_cleanup h) = None /\
   find_interval intervalId (intervals (run_cleanup h)) = None /\
   log (run_cleanup h) =
     log h ++ [(clock h, RemoveChannel c); (clock h, ClearInterval intervalId)] /\
   timeouts (run_cleanup h) = timeouts h /\
   inflight (run_cleanup h) = inflight h) /\
  (forall new, same_deps (deps h) new = false ->
     timeouts (next h (Render new)) = timeouts h /\
     agentProgress (after h [Render new; Settle req (rows data)]) =
     mappedProgress DateValue data) /\
  (forall res,
     agentProgress (after h [Unmount; Settle req res]) = agentProgress h).
Proof.
  intros Hm Hc Hch Hreq.
  pose proof (quiet_run_cleanup h) as (_ & Hi & Ha & Hmo & Ht & _).
  split; [|split].
  - unfold run_cleanup, effect_cleanup, drop_channel. rewrite Hc, Hch. simpl.
    rewrite find_remove_interval, <- app_assoc. auto.
  - intros new Hd.
    change (after h [Render new; Settle req (rows data)])
      with (next (next h (Render new)) (Settle req (rows data))).
    rewrite (render_changed h new Hm Hd).
    destruct (effect_keeps new (run_cleanup h)) as (Hm' & Ht' & Hf').
    split; [simpl; congruence|].
    rewrite (settle_rows _ req q data); simpl; auto.
    + congruence.
    + apply Hf'. congruence.
  - intros res.
    change (after h [Unmount; Settle req res])
      with (next (next h Unmount) (Settle req res)).
    assert (Hu : next h Unmount = set_mounted false (run_cleanup h))
      by (simpl; now rewrite Hm).
    rewrite Hu. unfold step. simpl inflight. rewrite Hi, Hreq.
    unfold fetchProgress_resume, fetchProgress_try, setAgentProgress.
    destruct res as [[d|] [e|]|reason]; simpl; auto.
Qed.


(** A fetch trigger that meets the guard changes nothing the guard
    protects. *)
Lemma dropped_trigger h e :
  fetch_trigger e ->
  clock h - lastFetchRef h < 500 ->
  reads (log (next h e)) = reads (log h) /\
  inflight (next h e) = inflight h /\
  agentProgress (next h e) = agentProgress h /\
  writes (log (next h e)) = writes (log h) /\
  (List.length (timeouts (next h e)) <= List.length (timeouts h))%nat.
Proof.
  intros He Hg.
  assert (Hq : forall h', quiet h h' ->
            reads (log h') = reads (log h) /\
            inflight h' = inflight h /\
            agentProgress h' = agentProgress h /\
            writes (log h') = writes (log h) /\
            (List.length (timeouts h') <= List.length (timeouts h))%nat).
  { intros h' ((_ & _ & Hr) & Hi & Ha & _ & Ht & _ & Hw).
    rewrite Hr, Hi, Ha, Ht, Hw. auto. }
  destruct e; simpl in He; try contradiction.
  - destruct queryId as [q|]; [|contradiction].
    apply String.eqb_neq in He. apply Hq. simpl.
    destruct (negb (mounted h)); [apply quiet_refl|].
    destruct (same_deps (deps h) (Some q)); [apply quiet_refl|].
    unfold effect. rewrite He.
    pose proof (quiet_trans _ _ _ (quiet_run_cleanup h)
                  (quiet_drop_channel (run_cleanup h))) as Hq0.
    set (h0 := drop_channel (run_cleanup h)) in *.
    rewrite fetch_dropped.
    + eapply quiet_trans; [exact Hq0|].
      eapply quiet_trans; [apply quiet_open_channel|].
      eapply quiet_trans; [apply quiet_start_polling|]. apply quiet_set_deps.
    + destruct Hq0 as ((Hc & Hl & _) & _). rewrite Hc, Hl. exact Hg.
  - simpl. destruct (nth_error (timeouts h) i) as [[due q]|]; [|apply Hq, quiet_refl].
    destruct (due <=? clock h); [|apply Hq, quiet_refl].
    rewrite fetch_dropped by exact Hg. simpl.
    repeat split; auto. apply remove_nth_length.
  - simpl. destruct (find_interval iv (intervals h)) as [x|]; [|apply Hq, quiet_refl].
    destruct (iv_due x <=? clock h); [|apply Hq, quiet_refl].
    rewrite fetch_dropped by exact Hg. apply Hq, quiet_set_intervals.
Qed.

(** C6, as the code has it.  In every state the hook reaches, a call of
    [fetchProgress] (by the effect of a render, by a 100ms timer or by a poll
    tick) that comes less than 500ms after the last read of the store was
    sent is dropped: the store is not read, no request is awaited, the
    state is not written and nothing is queued for later. *)
Theorem min_fetch_interval (t : Z) (evs : list Event) (e : Event) :
  fetch_trigger e ->
  clock (after (init t) evs) - last (reads (log (after (init t) evs))) 0 < 500 ->
  reads (log (next (after (init t) evs) e)) = reads (log (after (init t) evs)) /\
  inflight (next (after (init t) evs) e) = inflight (after (init t) evs) /\
  agentProgress (next (after (init t) evs) e) =
    agentProgress (after (init t) evs) /\
  writes (log (next (after (init t) evs) e)) =
    writes (log (after (init t) evs)) /\
  (List.length (timeouts (next (after (init t) evs) e)) <=
   List.length (timeouts (after (init t) evs)))%nat.
Proof.
  intros He Hg. rewrite <- lastFetchRef_last_read in Hg.
  now apply dropped_trigger.
Qed.

(** C7, as the code has it.  On an open channel every notification arms one
    timer, due 100ms later, and does nothing else: the fetch is not run in
    line.  A burst of notifications arms as many timers as it has
    notifications, none of which replaces another.  What keeps the store
    from being read once per timer is the 500ms guard: in any run that takes
    less than 500ms the store is read at most once. *)
Theorem push_is_deferred (h : Hook) (c : Channel) :
  channelRef h = Some c ->
  (forall tbl,
     next h (Notify tbl) =
     emit (SetTimeout (clock h + 100) (ch_query c))
       (set_timeouts (timeouts h ++ [(clock h + 100, ch_query c)]) h)) /\
  (forall evs, is_burst evs ->
     timeouts (after h evs) = timeouts h ++ armed (clock h) (ch_query c) evs /\
     reads (log (after h evs)) = reads (log h) /\
     inflight (after h evs) = inflight h) /\
  (forall evs, duration evs < 500 ->
     (List.length (reads (log (after h evs))) <=
      List.length (reads (log h)) + 1)%nat).
Proof.
  intros Hc. split; [|split].
  - intros tbl. simpl. now rewrite Hc.
  - intros evs Hb.
    destruct (burst_arms DateValue evs h c Hc Hb) as (H1 & H2 & H3 & _). auto.
  - intros evs Hd. rewrite Nat.add_1_r.
    apply (window_reads DateValue evs h (clock h)); auto; lia.
Qed.

End MachineClaims.

(** *** The machine on concrete runs *)

(** C4 fails on the code.  Request 0 is sent at [t0], request 2 at
    [t0 + 3000]; request 2 settles first with the newer row, request 0 last
    with the older one, and the older one is what the hook shows. *)
Lemma stale_result_overwrites :
  log (run utcTime (init t0) stale_run) =
    [(t0, StoreRead 0 "q1");
     (t0, Subscribe (mkChannel "q1" t0));
     (t0, SetInterval 1 "q1");
     (t0 + 3000, StoreRead 2 "q1");
     (t0 + 3100, SetAgentProgress [mkAgent "Browser Agent" "completed" 100 None]);
     (t0 + 3200, SetAgentProgress [mkAgent "Browser Agent" "active" 40 None])] /\
  mappedProgress utcTime [browser_late] =
    [mkAgent "Browser Agent" "completed" 100 None] /\
  agentProgress (run utcTime (init t0) stale_run) =
    [mkAgent "Browser Agent" "active" 40 None] /\
  agentProgress (run utcTime (init t0) stale_run) <>
    mappedProgress utcTime [browser_late].
Proof.
  repeat split; try reflexivity. vm_compute. discriminate.
Qed.

(** Requests 0 and 2 are awaited; 2 settles first, 0 last. *)
Lemma last_settled_wins_witness :
  mounted two_awaited = true /\
  inflight two_awaited = [(0%nat, "q1"); (2%nat, "q1")] /\
  agentProgress
    (run utcTime two_awaited
       [Settle 2 (rows [browser_late]); Settle 0 (rows [browser_early])]) =
  mappedProgress utcTime [browser_early].
Proof.
  split; [reflexivity|]. split; [reflexivity|].
  apply (last_settled_wins utcTime two_awaited 0 2 "q1" "q1").
  - reflexivity.
  - reflexivity.
  - reflexivity.
  - discriminate.
Defined.

(** C5 fails on the code.  [queryId] becomes [null] while the seed fetch is
    awaited: the cleanup runs, the state is cleared, and 200ms later the
    fetch settles and writes the state. *)
Lemma write_after_teardown :
  log (run utcTime (init t0) teardown_run) =
    [(t0, StoreRead 0 "q1");
     (t0, Subscribe (mkChannel "q1" t0));
     (t0, SetInterval 1 "q1");
     (t0 + 200, RemoveChannel (mkChannel "q1" t0));
     (t0 + 200, ClearInterval 1);
     (t0 + 200, SetAgentProgress []);
     (t0 + 400, SetAgentProgress [mkAgent "Browser Agent" "active" 40 None])] /\
  deps (run utcTime (init t0) teardown_run) = Some None /\
  channelRef (run utcTime (init t0) teardown_run) = None /\
  agentProgress (run utcTime (init t0) teardown_run) =
    [mkAgent "Browser Agent" "active" 40 None].
Proof. repeat split; reflexivity. Qed.

(** The subscription of ["q1"] is closed by a [null] [queryId] while request
    0 is awaited. *)
Lemma teardown_leaves_fetches_witness :
  cleanup subscribed = Some 1%nat /\
  channelRef subscribed = Some (mkChannel "q1" t0) /\
  inflight subscribed = [(0%nat, "q1")] /\
  agentProgress
    (run utcTime subscribed [Render None; Settle 0 (rows [browser_early])]) =
  mappedProgress utcTime [browser_early].
Proof.
  split; [reflexivity|]. split; [reflexivity|]. split; [reflexivity|].
  destruct (teardown_leaves_fetches utcTime subscribed 1 (mkChannel "q1" t0)
              0 "q1" [browser_early] eq_refl eq_refl eq_refl eq_refl)
    as (_ & H & _).
  apply (H None). reflexivity.
Defined.

(** C6 fails on the code.  The seed fetch is sent at [t0] and completes at
    [t0 + 400]; the timer that fires at [t0 + 600], 200ms after that
    completion, reads the store: the 500ms are counted from the time the last
    request was sent. *)
Lemma refetch_200ms_after_completion :
  log (run utcTime (init t0) early_refetch_run) =
    [(t0, StoreRead 0 "q1");
     (t0, Subscribe (mkChannel "q1" t0));
     (t0, SetInterval 1 "q1");
     (t0 + 400, SetAgentProgress [mkAgent "Browser Agent" "active" 40 None]);
     (t0 + 500, SetTimeout (t0 + 600) "q1");
     (t0 + 600, StoreRead 2 "q1")] /\
  inflight (run utcTime (init t0) (removelast early_refetch_run)) = [] /\
  inflight (run utcTime (init t0) early_refetch_run) = [(2%nat, "q1")] /\
  (t0 + 600) - (t0 + 400) < 500.
Proof. repeat split; reflexivity. Qed.

(** A timer that fires 200ms after the seed fetch was sent. *)
Lemma min_fetch_interval_witness :
  clock (run utcTime (init t0)
           [Render (Some "q1"); Advance 100; Notify agent_progress; Advance 100])
  = t0 + 200 /\
  reads (log (run utcTime (init t0)
                [Render (Some "q1"); Advance 100; Notify agent_progress;
                 Advance 100])) = [t0] /\
  reads (log (run utcTime (init t0)
                [Render (Some "q1"); Advance 100; Notify agent_progress;
                 Advance 100; TimeoutFires 0])) = [t0].
Proof.
  split; [reflexivity|]. split; [reflexivity|].
  destruct (min_fetch_interval utcTime t0
              [Render (Some "q1"); Advance 100; Notify agent_progress;
               Advance 100]
              (TimeoutFires 0) I) as (H & _).
  - vm_compute. reflexivity.
  - change (reads (log (step utcTime
                       (run utcTime (init t0)
                          [Render (Some "q1"); Advance 100;
                           Notify agent_progress; Advance 100])
                       (TimeoutFires 0))) = [t0]).
    rewrite H. reflexivity.
Defined.

(** C7 fails on the code.  Ten notifications within 45ms arm ten timers, not
    one.  And the ten timers need not read the store even once: when the
    burst comes 100ms after the seed fetch, every one of them meets the 500ms
    guard. *)
Lemma burst_arms_ten_timers :
  duration burst10 = 45 /\
  List.length (timeouts one_second_in) = 0%nat /\
  List.length (timeouts (run utcTime one_second_in burst10)) = 10%nat /\
  reads (log (run utcTime one_second_in
                (burst10 ++ [Advance 100] ++ fire10))) = [t0; t0 + 1145] /\
  timeouts (run utcTime (init t0)
              ([Render (Some "q1"); Advance 100] ++ burst10
               ++ [Advance 100] ++ fire10)) = [] /\
  reads (log (run utcTime (init t0)
                ([Render (Some "q1"); Advance 100] ++ burst10
                 ++ [Advance 100] ++ fire10))) = [t0].
Proof. repeat split; reflexivity. Qed.

(** The burst of ten notifications, one second after the first render. *)
Lemma push_is_deferred_witness :
  channelRef one_second_in = Some (mkChannel "q1" t0) /\
  timeouts (run utcTime one_second_in burst10) =
    [(t0 + 1100, "q1"); (t0 + 1105, "q1"); (t0 + 1110, "q1");
     (t0 + 1115, "q1"); (t0 + 1120, "q1"); (t0 + 1125, "q1");
     (t0 + 1130, "q1"); (t0 + 1135, "q1"); (t0 + 1140, "q1");
     (t0 + 1145, "q1")] /\
  (List.length (reads (log (run utcTime one_second_in
                              (burst10 ++ [Advance 100] ++ fire10)))) <=
   List.length (reads (log one_second_in)) + 1)%nat.
Proof.
  split; [reflexivity|].
  destruct (push_is_deferred utcTime one_second_in (mkChannel "q1" t0) eq_refl)
    as (_ & Hb & Hw).
  split.
  - destruct (Hb burst10) as (Ht & _).
    + repeat constructor.
    + rewrite Ht. reflexivity.
  - apply Hw. vm_compute. reflexivity.
Defined.


(** C9 on the code.  The owner switches from ["q1"] to ["q2"] 100ms after
    the first render.  The effect closes the channel and the interval of
    ["q1"] and opens those of ["q2"], but its call of [fetchProgress] stops at
    the guard, because [lastFetchRef] still holds the time of the seed fetch
    of ["q1"]: no read of ["q2"] is sent, where the first render did send
    one.  When the fetch of ["q1"] settles, its rows are shown under the
    subscription to ["q2"]. *)
Theorem resubscribe_skips_seed_fetch :
  log (run utcTime (init t0) resubscribe_run) =
    [(t0, StoreRead 0 "q1");
     (t0, Subscribe (mkChannel "q1" t0));
     (t0, SetInterval 1 "q1");
     (t0 + 100, RemoveChannel (mkChannel "q1" t0));
     (t0 + 100, ClearInterval 1);
     (t0 + 100, Subscribe (mkChannel "q2" (t0 + 100)));
     (t0 + 100, SetInterval 2 "q2")] /\
  deps (run utcTime (init t0) resubscribe_run) = Some (Some "q2") /\
  inflight (run utcTime (init t0) resubscribe_run) = [(0%nat, "q1")] /\
  lastFetchRef (run utcTime (init t0) resubscribe_run) = t0 /\
  query_id browser_early = Some "q1" /\
  channelRef (run utcTime (init t0) resubscribe_settled_run) =
    Some (mkChannel "q2" (t0 + 100)) /\
  reads (log (run utcTime (init t0) resubscribe_settled_run)) = [t0] /\
  agentProgress (run utcTime (init t0) resubscribe_settled_run) =
    mappedProgress utcTime [browser_early].
Proof. repeat split; vm_compute; reflexivity. Qed.

(** *** Further properties of the loop *)

Lemma spaced_snoc l x :
  spaced l -> (l = [] \/ 500 <= x - last l 0) -> spaced (l ++ [x]).
Proof.
  induction l as [|y l IH]; intros Hs Hx; simpl; auto.
  destruct Hs as [Hy Hs]. split.
  - destruct l as [|z l]; simpl; auto.
    destruct Hx as [Hx|Hx]; [discriminate|]. exact Hx.
  - apply IH; auto. destruct l as [|z l]; auto.
    right. destruct Hx as [Hx|Hx]; [discriminate|]. exact Hx.
Qed.

Section MachineExtras.

Variable DateValue : string -> TimeValue.

Local Abbreviation next := (step DateValue).
Local Abbreviation after := (run DateValue).

(** X1.  The rate limit of [fetchProgress]: in every run of the hook, two
    consecutive reads of the store are 500ms apart or more. *)
Theorem reads_are_spaced (t : Z) (evs : list Event) :
  spaced (reads (log (after (init t) evs))).
Proof.
  induction evs as [|e evs IH] using rev_ind; [exact I|].
  rewrite run_app.
  change (after (after (init t) evs) [e]) with (next (after (init t) evs) e).
  destruct (step_reads DateValue (after (init t) evs) e)
    as [_ [[Hr _]|[Hr [_ Hg]]]]; rewrite Hr; auto.
  apply spaced_snoc; auto.
  right. now rewrite <- lastFetchRef_last_read.
Qed.

(** X2.  A render without a query ([null] or ['']) clears the state after the
    cleanup of the last effect, and does nothing else: no read of the store,
    no channel, no interval. *)
Theorem no_query_clears (h : Hook) (queryId : option string) :
  mounted h = true ->
  same_deps (deps h) queryId = false ->
  no_query queryId = true ->
  agentProgress (next h (Render queryId)) = [] /\
  log (next h (Render queryId)) =
    log (run_cleanup h) ++ [(clock h, SetAgentProgress [])].
Proof.
  intros Hm Hd Hq. rewrite (render_changed DateValue h _ Hm Hd).
  pose proof (quiet_run_cleanup h) as ((Hc & _) & _ & _ & Hmo & _).
  assert (He : effect queryId (run_cleanup h) =
               setAgentProgress [] (run_cleanup h)).
  { unfold effect. destruct queryId as [q|]; auto.
    simpl in Hq. now rewrite Hq. }
  rewrite He. unfold setAgentProgress. rewrite Hmo, Hm. simpl.
  now rewrite Hc.
Qed.

(** X3.  A failed fetch does not stop the loop: the channel, the polling interval,
    the pending timers and the pending cleanup are as they were. *)
Theorem failed_fetch_keeps_polling (h : Hook) (req : nat) (res : Settled) :
  failed res ->
  channelRef (next h (Settle req res)) = channelRef h /\
  intervals (next h (Settle req res)) = intervals h /\
  timeouts (next h (Settle req res)) = timeouts h /\
  cleanup (next h (Settle req res)) = cleanup h /\
  deps (next h (Settle req res)) = deps h.
Proof.
  intros Hf. unfold step.
  destruct (find_request req (inflight h)); auto.
  destruct res as [data [e|]|reason]; simpl in Hf; try contradiction.
  - destruct data; simpl; auto.
  - simpl. auto.
Qed.

(** X4.  A change of [queryId] closes the channel and the interval of the old
    query before it opens those of the new one. *)
Theorem resubscribe_closes_first (h : Hook) (q : string) (c : Channel)
    (intervalId : nat) :
  mounted h = true ->
  q <> "" ->
  same_deps (deps h) (Some q) = false ->
  cleanup h = Some intervalId ->
  channelRef h = Some c ->
  channelRef (next h (Render (Some q))) = Some (mkChannel q (clock h)) /\
  exists fetched newId,
    log (next h (Render (Some q))) =
    log h
    ++ [(clock h, RemoveChannel c); (clock h, ClearInterval intervalId)]
    ++ fetched
    ++ [(clock h, Subscribe (mkChannel q (clock h)));
        (clock h, SetInterval newId q)].
Proof.
  intros Hm Hq Hd Hc Hch.
  rewrite (render_changed DateValue h _ Hm Hd).
  unfold effect. apply String.eqb_neq in Hq. rewrite Hq.
  assert (Hrc : exists h0,
            drop_channel (run_cleanup h) = h0 /\
            clock h0 = clock h /\
            log h0 = log h ++ [(clock h, RemoveChannel c);
                               (clock h, ClearInterval intervalId)]).
  { eexists. split; [reflexivity|].
    unfold run_cleanup, effect_cleanup, drop_channel. rewrite Hc, Hch. simpl.
    rewrite <- app_assoc. auto. }
  destruct Hrc as (h0 & Hh0 & Hclk & Hlog). rewrite Hh0.
  destruct (fetchProgress_cases q h0) as [[_ Hf]|[_ Hf]]; rewrite Hf; simpl;
    rewrite Hclk, Hlog.
  - split; [reflexivity|]. exists [], (fresh h0).
    rewrite <- !app_assoc. reflexivity.
  - split; [reflexivity|].
    exists [(clock h, StoreRead (fresh h0) q)], (S (fresh h0)).
    rewrite <- !app_assoc. reflexivity.
Qed.

(** X19.  The effect of a render with a new, non-empty [queryId], once what
    the last effect left open is closed, calls [fetchProgress] in line, then
    subscribes the channel, then starts the polling interval, in that order.
    The call is under the 500ms guard like every other: it reads the store
    exactly when 500ms have passed since the last read was sent. *)
Theorem subscribe_order (h : Hook) (q : string) :
  mounted h = true ->
  q <> "" ->
  same_deps (deps h) (Some q) = false ->
  next h (Render (Some q)) =
    set_deps (Some (Some q))
      (start_polling q
         (open_channel q
            (fetchProgress q (drop_channel (run_cleanup h))))) /\
  exists intervalId,
    log (next h (Render (Some q))) =
    log (drop_channel (run_cleanup h))
    ++ (if clock h - lastFetchRef h <? 500 then []
        else [(clock h, StoreRead (fresh (run_cleanup h)) q)])
    ++ [(clock h, Subscribe (mkChannel q (clock h)));
        (clock h, SetInterval intervalId q)].
Proof.
  intros Hm Hq Hd. rewrite (render_changed DateValue h _ Hm Hd).
  unfold effect. apply String.eqb_neq in Hq. rewrite Hq.
  split; [reflexivity|].
  pose proof (quiet_trans _ _ _ (quiet_run_cleanup h)
                (quiet_drop_channel (run_cleanup h))) as ((Hc & Hl & _) & _).
  assert (Hfr : fresh (drop_channel (run_cleanup h)) = fresh (run_cleanup h))
    by (unfold drop_channel; destruct (channelRef (run_cleanup h)); reflexivity).
  set (h0 := drop_channel (run_cleanup h)) in *.
  unfold fetchProgress. rewrite Hc, Hl.
  destruct (clock h - lastFetchRef h <? 500); simpl;
    rewrite ?Hc, ?Hfr, <- ?app_assoc; simpl; eexists; reflexivity.
Qed.

End MachineExtras.

(** [queryId] becomes [null] after the seed fetch has filled the state. *)
Lemma no_query_clears_witness :
  agentProgress (step utcTime subscribed (Settle 0 (rows [browser_early]))) =
    [mkAgent "Browser Agent" "active" 40 None] /\
  agentProgress
    (run utcTime subscribed
       [Settle 0 (rows [browser_early]); Render None]) = [].
Proof.
  split; [reflexivity|].
  destruct (no_query_clears utcTime
              (step utcTime subscribed (Settle 0 (rows [browser_early])))
              None eq_refl eq_refl eq_refl) as (H & _).
  exact H.
Defined.

(** The store answers the seed fetch with an error. *)
Lemma failed_fetch_keeps_polling_witness :
  failed (Fulfilled None (Some "timeout")) /\
  intervals (step utcTime subscribed
               (Settle 0 (Fulfilled None (Some "timeout")))) =
    [mkInterval 1 "q1" (t0 + 3000)].
Proof.
  split; [exact I|].
  destruct (failed_fetch_keeps_polling utcTime subscribed 0
              (Fulfilled None (Some "timeout")) I) as (_ & H & _).
  rewrite H. reflexivity.
Defined.

(** The owner switches from ["q1"] to ["q2"]. *)
Lemma resubscribe_closes_first_witness :
  cleanup subscribed = Some 1%nat /\
  channelRef subscribed = Some (mkChannel "q1" t0) /\
  channelRef (step utcTime subscribed (Render (Some "q2"))) =
    Some (mkChannel "q2" (t0 + 200)).
Proof.
  split; [reflexivity|]. split; [reflexivity|].
  assert (Hq : "q2" <> "") by discriminate.
  destruct (resubscribe_closes_first utcTime subscribed "q2"
              (mkChannel "q1" t0) 1 eq_refl Hq eq_refl eq_refl eq_refl)
    as (H & _).
  rewrite H. reflexivity.
Defined.

(** The first render with ["q1"]. *)
Lemma subscribe_order_witness :
  mounted (init t0) = true /\
  log (step utcTime (init t0) (Render (Some "q1"))) =
    [(t0, StoreRead 0 "q1");
     (t0, Subscribe (mkChannel "q1" t0));
     (t0, SetInterval 1 "q1")].
Proof.
  split; [reflexivity|].
  destruct (subscribe_order utcTime (init t0) "q1" eq_refl) as (H & _).
  - discriminate.
  - reflexivity.
  - rewrite H. reflexivity.
Defined.

(** *** One channel, one interval *)

Lemma Channel_eqb_refl c : Channel_eqb c c = true.
Proof.
  unfold Channel_eqb. now rewrite String.eqb_refl, Z.eqb_refl.
Qed.

Lemma live_snoc l x : live_channels (l ++ [x]) = live_step (live_channels l) x.
Proof. unfold live_channels. now rewrite fold_left_app. Qed.

(** An effect that is neither [Subscribe] nor [RemoveChannel] keeps
    [chan_ok]. *)
Lemma chan_ok_emit a h :
  match a with
  | Subscribe _ | RemoveChannel _ => True
  | _ => chan_ok h -> chan_ok (emit a h)
  end.
Proof.
  destruct a; auto; unfold chan_ok; simpl; rewrite live_snoc; auto.
Qed.

Lemma chan_ok_same h h' :
  log h' = log h -> channelRef h' = channelRef h -> chan_ok h -> chan_ok h'.
Proof. unfold chan_ok. intros Hl Hc. now rewrite Hl, Hc. Qed.

Lemma chan_ok_drop_channel h :
  chan_ok h -> chan_ok (drop_channel h) /\ channelRef (drop_channel h) = None.
Proof.
  unfold chan_ok, drop_channel. intros H.
  destruct (channelRef h) as [c|] eqn:E; [|rewrite E; auto].
  cbn [log channelRef set_channelRef emit]. rewrite live_snoc, H.
  unfold live_step, held. cbn [snd filter].
  now rewrite Channel_eqb_refl.
Qed.

Lemma chan_ok_open_channel q h :
  chan_ok h -> channelRef h = None -> chan_ok (open_channel q h).
Proof.
  unfold chan_ok, open_channel. intros H Hn. simpl.
  rewrite live_snoc, H, Hn. reflexivity.
Qed.

Lemma chan_ok_setAgentProgress v h : chan_ok h -> chan_ok (setAgentProgress v h).
Proof.
  unfold setAgentProgress. destruct (mounted h); auto.
  intros H. apply (chan_ok_emit (SetAgentProgress v)).
  eapply chan_ok_same; [| |exact H]; reflexivity.
Qed.

Lemma chan_ok_fetchProgress q h :
  chan_ok h ->
  chan_ok (fetchProgress q h) /\
  channelRef (fetchProgress q h) = channelRef h.
Proof.
  intros H. destruct (fetchProgress_cases q h) as [[_ Hf]|[_ Hf]]; rewrite Hf.
  - auto.
  - split; [|reflexivity].
    apply (chan_ok_emit (StoreRead (fresh h) q)).
    eapply chan_ok_same; [| |exact H]; reflexivity.
Qed.

Lemma chan_ok_run_cleanup h : chan_ok h -> chan_ok (run_cleanup h).
Proof.
  unfold run_cleanup. destruct (cleanup h) as [iv|]; auto.
  intros H. unfold effect_cleanup.
  destruct (chan_ok_drop_channel h H) as [Hd _].
  eapply chan_ok_same;
    [| |apply (chan_ok_emit (ClearInterval iv)); exact Hd]; reflexivity.
Qed.

Lemma chan_ok_effect q h : chan_ok h -> chan_ok (effect q h).
Proof.
  intros H. unfold effect.
  destruct q as [q|]; [|now apply chan_ok_setAgentProgress].
  destruct (String.eqb q ""); [now apply chan_ok_setAgentProgress|].
  destruct (chan_ok_drop_channel h H) as [Hd Hn].
  destruct (chan_ok_fetchProgress q _ Hd) as [Hf Hc].
  rewrite Hn in Hc.
  pose proof (chan_ok_open_channel q _ Hf Hc) as Ho.
  unfold start_polling.
  eapply chan_ok_same;
    [| |apply (chan_ok_emit (SetInterval (fresh (open_channel q
            (fetchProgress q (drop_channel h)))) q)); exact Ho];
    reflexivity.
Qed.

Lemma chan_ok_step DateValue h e : chan_ok h -> chan_ok (step DateValue h e).
Proof.
  intros H. destruct e; simpl.
  - destruct (negb (mounted h)); auto.
    destruct (same_deps (deps h) queryId); auto.
    eapply chan_ok_same;
      [| |apply chan_ok_effect, chan_ok_run_cleanup; exact H]; reflexivity.
  - destruct (negb (mounted h)); auto.
    eapply chan_ok_same; [| |apply chan_ok_run_cleanup; exact H]; reflexivity.
  - eapply chan_ok_same; [| |exact H]; reflexivity.
  - destruct (channelRef h) as [c|] eqn:E; auto.
    unfold on_change.
    apply (chan_ok_emit (SetTimeout (clock h + 100) (ch_query c))).
    eapply chan_ok_same; [| |exact H]; reflexivity.
  - destruct (channelRef h) as [c|] eqn:E; auto.
    destruct error as [err|]; auto.
    apply (chan_ok_emit (ConsoleError "Supabase subscription error:" err)).
    exact H.
  - destruct (nth_error (timeouts h) i) as [[due q]|]; auto.
    destruct (due <=? clock h); auto.
    apply chan_ok_fetchProgress.
    eapply chan_ok_same; [| |exact H]; reflexivity.
  - destruct (find_interval iv (intervals h)) as [x|]; auto.
    destruct (iv_due x <=? clock h); auto.
    apply chan_ok_fetchProgress.
    eapply chan_ok_same; [| |exact H]; reflexivity.
  - destruct (find_request req (inflight h)) as [q|]; auto.
    assert (H0 : chan_ok (set_inflight (remove_request req (inflight h)) h))
      by (eapply chan_ok_same; [| |exact H]; reflexivity).
    revert H0. generalize (set_inflight (remove_request req (inflight h)) h).
    intros h0 H0. unfold fetchProgress_resume, fetchProgress_try.
    destruct res as [[data|] [err|]|reason]; simpl; auto.
    + apply (chan_ok_emit (ConsoleError "Error fetching agent progress:" err)).
      exact H0.
    + now apply chan_ok_setAgentProgress.
    + apply (chan_ok_emit (ConsoleError "Error fetching agent progress:" err)).
      exact H0.
    + apply (chan_ok_emit (ConsoleError "Caught error in fetchProgress:" reason)).
      exact H0.
Qed.

(** X5.  At every moment of every run, the channels that have been
    subscribed and not removed are at most one, the one [channelRef] holds:
    a new channel is opened only after the old one is removed. *)
Theorem one_live_channel (DateValue : string -> TimeValue) (t : Z)
    (evs : list Event) :
  live_channels (log (run DateValue (init t) evs)) =
  held (channelRef (run DateValue (init t) evs)).
Proof.
  change (chan_ok (run DateValue (init t) evs)).
  induction evs as [|e evs IH] using rev_ind; [reflexivity|].
  rewrite run_app. now apply chan_ok_step.
Qed.

Lemma poll_ok_same h h' :
  cleanup h' = cleanup h -> intervals h' = intervals h ->
  poll_ok h -> poll_ok h'.
Proof. unfold poll_ok. intros Hc Hi. now rewrite Hc, Hi. Qed.

Lemma poll_same_fetchProgress q h :
  cleanup (fetchProgress q h) = cleanup h /\
  intervals (fetchProgress q h) = intervals h.
Proof.
  destruct (fetchProgress_cases q h) as [[_ Hf]|[_ Hf]]; rewrite Hf; auto.
Qed.

Lemma poll_same_setAgentProgress v h :
  cleanup (setAgentProgress v h) = cleanup h /\
  intervals (setAgentProgress v h) = intervals h.
Proof. unfold setAgentProgress. destruct (mounted h); auto. Qed.

Lemma poll_same_drop_channel h :
  cleanup (drop_channel h) = cleanup h /\
  intervals (drop_channel h) = intervals h.
Proof. unfold drop_channel. destruct (channelRef h); auto. Qed.

Lemma poll_ok_run_cleanup h :
  poll_ok h ->
  cleanup (run_cleanup h) = None /\ intervals (run_cleanup h) = [].
Proof.
  unfold poll_ok, run_cleanup. destruct (cleanup h) as [iv|] eqn:E.
  - intros (q & due & Hi). unfold effect_cleanup.
    destruct (poll_same_drop_channel h) as [_ Hd].
    cbn [cleanup intervals set_cleanup emit set_intervals].
    rewrite Hd, Hi. simpl. now rewrite Nat.eqb_refl.
  - auto.
Qed.

Lemma poll_ok_effect q h :
  cleanup h = None -> intervals h = [] -> poll_ok (effect q h).
Proof.
  intros Hc Hi.
  assert (Hs : forall v, poll_ok (setAgentProgress v h)).
  { intros v. destruct (poll_same_setAgentProgress v h) as [H1 H2].
    unfold poll_ok. now rewrite H1, H2, Hc. }
  unfold effect. destruct q as [q|]; [|apply Hs].
  destruct (String.eqb q ""); [apply Hs|].
  destruct (poll_same_drop_channel h) as [_ H1].
  destruct (poll_same_fetchProgress q (drop_channel h)) as [_ H2].
  unfold poll_ok, start_polling, open_channel.
  cbn [cleanup intervals set_cleanup emit set_intervals set_fresh
         set_channelRef].
  rewrite H2, H1, Hi. simpl. eauto.
Qed.

Lemma poll_ok_step DateValue h e : poll_ok h -> poll_ok (step DateValue h e).
Proof.
  intros H. destruct e; simpl.
  - destruct (negb (mounted h)); auto.
    destruct (same_deps (deps h) queryId); auto.
    destruct (poll_ok_run_cleanup h H) as [Hc Hi].
    eapply poll_ok_same; [| |apply (poll_ok_effect queryId _ Hc Hi)];
      reflexivity.
  - destruct (negb (mounted h)); auto.
    destruct (poll_ok_run_cleanup h H) as [Hc Hi].
    unfold poll_ok. cbn [cleanup intervals set_mounted]. now rewrite Hc.
  - exact H.
  - destruct (channelRef h); auto.
  - destruct (channelRef h); auto. destruct error; auto.
  - destruct (nth_error (timeouts h) i) as [[due q]|]; auto.
    destruct (due <=? clock h); auto.
    destruct (poll_same_fetchProgress q
                (set_timeouts (remove_nth i (timeouts h)) h)) as [H1 H2].
    eapply poll_ok_same; [exact H1|exact H2|exact H].
  - destruct (find_interval iv (intervals h)) as [x|] eqn:F; auto.
    destruct (iv_due x <=? clock h); auto.
    destruct (poll_same_fetchProgress (iv_query x)
                (set_intervals
                   (rearm_interval iv (clock h + 3000) (intervals h)) h))
      as [H1 H2].
    unfold poll_ok in *. rewrite H1, H2.
    cbn [cleanup intervals set_intervals].
    destruct (cleanup h) as [iv0|].
    + destruct H as (q & due & Hi). rewrite Hi in *. simpl in *.
      destruct (Nat.eqb iv0 iv); [eauto|discriminate].
    + rewrite H in F. discriminate.
  - destruct (find_request req (inflight h)) as [q|]; auto.
    assert (H0 : poll_ok (set_inflight (remove_request req (inflight h)) h))
      by exact H.
    revert H0. generalize (set_inflight (remove_request req (inflight h)) h).
    intros h0 H0. unfold fetchProgress_resume, fetchProgress_try.
    destruct res as [[data|] [err|]|reason]; simpl; auto.
    destruct (poll_same_setAgentProgress (mappedProgress DateValue data) h0)
      as [H1 H2].
    eapply poll_ok_same; [exact H1|exact H2|exact H0].
Qed.

(** X6.  At every moment of every run there is at most one polling interval,
    and none when no cleanup is pending: the cleanup clears the interval its
    effect started. *)
Theorem one_polling_interval (DateValue : string -> TimeValue) (t : Z)
    (evs : list Event) :
  poll_ok (run DateValue (init t) evs) /\
  (List.length (intervals (run DateValue (init t) evs)) <= 1)%nat.
Proof.
  assert (H : poll_ok (run DateValue (init t) evs)).
  { induction evs as [|e evs IH] using rev_ind; [reflexivity|].
    rewrite run_app. now apply poll_ok_step. }
  split; [exact H|].
  unfold poll_ok in H. destruct (cleanup _).
  - destruct H as (q & due & Hi). rewrite Hi. simpl. lia.
  - rewrite H. simpl. lia.
Qed.

(** ** Part I, continued.  The shape of the output *)

Section OutputShape.

Variable DateValue : string -> TimeValue.

Local Abbreviation latest := (latestProgressByAgent DateValue).

(** Every entry is filed under the agent name of its row. *)
Lemma latest_keys l :
  Obj.keys (latest l) = map agent_name (Obj.values (latest l)).
Proof.
  unfold Obj.keys, Obj.values. rewrite map_map.
  apply map_ext_in. intros [k v] Hin. simpl.
  apply In_own in Hin; [|apply latest_NoDup].
  now destruct (latest_member DateValue _ _ _ Hin).
Qed.

Lemma mapped_names l :
  map name (mappedProgress DateValue l) = Obj.keys (latest l).
Proof.
  unfold mappedProgress. rewrite map_map. simpl. symmetry. apply latest_keys.
Qed.

(** X8.  The output of the aggregation has exactly one element for every
    agent of the answer that is not named like a member of
    [Object.prototype]: the names in [mappedProgress] are pairwise different,
    and they are the agent names of the rows, those names left out. *)
Theorem one_entry_per_agent (data : list DatabaseAgentProgress) :
  NoDup (map name (mappedProgress DateValue data)) /\
  forall n, In n (map name (mappedProgress DateValue data)) <->
            In n (map agent_name data) /\ Obj.inherited n = false.
Proof.
  rewrite mapped_names. split; [apply latest_NoDup|].
  intros n. split.
  - intros H. destruct (Obj.own (latest data) n) as [c|] eqn:G.
    + destruct (latest_member DateValue _ _ _ G) as [Hin Hn].
      split; [subst n; now apply in_map|].
      exact (latest_own_not_inherited DateValue _ _ _ G).
    + apply own_None_keys in G. contradiction.
  - intros [H Hi]. apply in_map_iff in H. destruct H as (r & Hn & Hr).
    subst n. destruct (latest_defined DateValue _ _ Hr Hi) as [c Hc].
    destruct (in_dec string_dec (agent_name r) (Obj.keys (latest data)))
      as [Hk|Hk]; auto.
    apply own_None_keys in Hk. congruence.
Qed.

(** The fold, run on the values of a dictionary whose entries come after
    those of the accumulator, adds them one by one at the end. *)
Lemma fold_onto (o2 : Obj.t DatabaseAgentProgress) : forall o1,
  Obj.ordered (o1 ++ o2) ->
  NoDup (Obj.keys (o1 ++ o2)) ->
  (forall k v, In (k, v) o2 -> k = agent_name v /\ Obj.inherited k = false) ->
  fold_left (reducer DateValue) (Obj.values o2) o1 = o1 ++ o2.
Proof.
  induction o2 as [|[k v] o2 IH]; intros o1 Ho Hnd Hk; simpl.
  - now rewrite app_nil_r.
  - destruct (Hk k v (or_introl eq_refl)) as [Ek Hi]. subst k.
    assert (Hown : Obj.own o1 (agent_name v) = None).
    { apply own_None_keys. unfold Obj.keys in *. rewrite map_app in Hnd.
      simpl in Hnd. apply NoDup_remove_2 in Hnd. intros H. apply Hnd.
      apply in_or_app. auto. }
    assert (Hset : reducer DateValue o1 v = o1 ++ [(agent_name v, v)]).
    { unfold reducer, Obj.get. rewrite Hown, Hi. apply set_last; auto.
      unfold Obj.ordered, Obj.keys in Ho. rewrite map_app in Ho.
      simpl in Ho. now apply sorted_middle in Ho. }
    rewrite Hset.
    replace (o1 ++ (agent_name v, v) :: o2)
      with ((o1 ++ [(agent_name v, v)]) ++ o2)
      by (now rewrite <- app_assoc).
    apply IH.
    + now rewrite <- app_assoc.
    + now rewrite <- app_assoc.
    + intros k' v' Hin. apply Hk. now right.
Qed.

(** A dictionary with one entry per agent, each under its row's name, is what
    the fold makes of its own values. *)
Lemma fold_of_values (o : Obj.t DatabaseAgentProgress) :
  Obj.ordered o ->
  NoDup (Obj.keys o) ->
  (forall k v, In (k, v) o -> k = agent_name v /\ Obj.inherited k = false) ->
  latest (Obj.values o) = o.
Proof.
  intros Ho Hnd Hk. unfold latestProgressByAgent.
  now rewrite (fold_onto o Obj.empty).
Qed.

(** X9.  Aggregating is a projection: the rows the fold keeps, given back
    to it, are all kept and in the same order, so the output is the same. *)
Theorem aggregation_idempotent (data : list DatabaseAgentProgress) :
  latest (Obj.values (latest data)) = latest data /\
  mappedProgress DateValue (Obj.values (latest data)) =
  mappedProgress DateValue data.
Proof.
  assert (H : latest (Obj.values (latest data)) = latest data).
  { apply fold_of_values; [apply latest_ordered|apply latest_NoDup|].
    intros k v Hin. apply In_own in Hin; [|apply latest_NoDup].
    split.
    - now destruct (latest_member DateValue _ _ _ Hin).
    - exact (latest_own_not_inherited DateValue _ _ _ Hin). }
  split; [exact H|]. unfold mappedProgress. now rewrite H.
Qed.

(** The first row of an agent wins when no later row of the agent is
    strictly later than it. *)
Lemma first_row_unbeaten l n r :
  Obj.inherited n = false ->
  first_row n l = Some r ->
  (forall l1 l2, l = l1 ++ r :: l2 ->
     forall y, In y l2 -> agent_name y = agent_name r ->
     date_gt (updated DateValue y) (updated DateValue r) = false) ->
  Obj.own (latest l) n = Some r.
Proof.
  unfold first_row. intros Hi Hf Hle.
  assert (Hn : agent_name r = n).
  { apply find_some in Hf. destruct Hf as [_ Hf]. now apply String.eqb_eq. }
  assert (Hsplit : exists l1 l2, l = l1 ++ r :: l2 /\
            forall y, In y l1 -> agent_name y <> n).
  { clear Hle. induction l as [|x l IH]; [discriminate|].
    simpl in Hf. destruct (String.eqb (agent_name x) n) eqn:E.
    - inversion Hf. subst x. exists [], l. split; [reflexivity|].
      intros y Hy. destruct Hy.
    - destruct (IH Hf) as (l1 & l2 & Hl & Hno).
      exists (x :: l1), l2. split; [simpl; now rewrite Hl|].
      intros y [Hy|Hy]; [subst y; now apply String.eqb_neq|auto]. }
  destruct Hsplit as (l1 & l2 & Hl & Hno).
  specialize (Hle l1 l2 Hl). subst l n.
  unfold latestProgressByAgent. rewrite fold_left_app. simpl.
  fold (latest l1).
  apply entry_stays; auto.
  rewrite reducer_same, Hi.
  destruct (Obj.own (latest l1) (agent_name r)) as [c|] eqn:G; auto.
  destruct (latest_member DateValue _ _ _ G) as [Hin Hc].
  exfalso. exact (Hno c Hin Hc).
Qed.

Lemma first_row_None l n :
  first_row n l = None -> Obj.own (latest l) n = None.
Proof.
  intros Hf. destruct (Obj.own (latest l) n) as [c|] eqn:G; auto.
  destruct (latest_member DateValue _ _ _ G) as [Hin Hc].
  unfold first_row in Hf.
  apply (find_none _ _ Hf) in Hin. simpl in Hin.
  apply String.eqb_neq in Hin. contradiction.
Qed.

(** X10.  On an answer in the order the query asks the store for, newest
    first, the fold never replaces an entry.  The lookup of a name gives the
    first row of that agent in the answer, and [undefined] when the answer
    has no row of that name; under the name of a member of
    [Object.prototype] it gives that member, whatever the rows. *)
Theorem newest_first_keeps_first_rows (l : list DatabaseAgentProgress)
    (n : string) :
  newest_first DateValue l ->
  Obj.get (latest l) n =
  if Obj.inherited n then Obj.Inherited
  else match first_row n l with
       | Some r => Obj.Own r
       | None => Obj.Undefined
       end.
Proof.
  intros Hs. unfold Obj.get.
  destruct (Obj.inherited n) eqn:Hi.
  - now rewrite latest_inherited.
  - destruct (first_row n l) as [r|] eqn:F;
      [|now rewrite first_row_None].
    rewrite (first_row_unbeaten l n r); auto.
    intros l1 l2 Hl y Hy _. subst l.
    unfold newest_first in Hs.
    assert (Hr : StronglySorted
                   (fun a b => time_le (updated DateValue b) (updated DateValue a))
                   (r :: l2)).
    { clear F. induction l1 as [|x l1 IH]; auto.
      simpl in Hs. apply StronglySorted_inv in Hs. tauto. }
    apply StronglySorted_inv in Hr. destruct Hr as [_ Hall].
    rewrite Forall_forall in Hall. specialize (Hall y Hy).
    unfold time_le, date_gt in *.
    destruct (updated DateValue y), (updated DateValue r); try contradiction.
    apply Z.ltb_ge. lia.
Qed.

End OutputShape.

(** The answer of the examples, newest first: the browser agent's and the
    writer agent's first rows are kept, and [toString] is the prototype's. *)
Lemma newest_first_keeps_first_rows_witness :
  newest_first utcTime sorted_answer /\
  Obj.get (latestProgressByAgent utcTime sorted_answer) "Writer Agent" =
    Obj.Own writer_paused /\
  Obj.get (latestProgressByAgent utcTime sorted_answer) "Browser Agent" =
    Obj.Own browser_late /\
  Obj.get (latestProgressByAgent utcTime sorted_answer) "toString" =
    Obj.Inherited.
Proof.
  assert (Hs : newest_first utcTime sorted_answer).
  { unfold newest_first, sorted_answer.
    repeat (constructor; [|repeat constructor; vm_compute; discriminate]).
    constructor. }
  split; [exact Hs|]. split; [|split].
  - rewrite (newest_first_keeps_first_rows utcTime sorted_answer
               "Writer Agent" Hs). reflexivity.
  - rewrite (newest_first_keeps_first_rows utcTime sorted_answer
               "Browser Agent" Hs). reflexivity.
  - rewrite (newest_first_keeps_first_rows utcTime sorted_answer
               "toString" Hs). reflexivity.
Defined.

(** ** Part II, continued.  What the state holds, and the closed hook *)

Lemma remove_nth_Some {A} i (l : list A) x :
  nth_error l i = Some x -> S (List.length (remove_nth i l)) = List.length l.
Proof.
  revert i. induction l as [|y l IH]; intros [|i]; simpl; try discriminate.
  - reflexivity.
  - intros H. now rewrite (IH i H).
Qed.

Lemma same_fetchProgress q h :
  agentProgress (fetchProgress q h) = agentProgress h /\
  cleanup (fetchProgress q h) = cleanup h /\
  channelRef (fetchProgress q h) = channelRef h /\
  mounted (fetchProgress q h) = mounted h /\
  intervals (fetchProgress q h) = intervals h /\
  timeouts (fetchProgress q h) = timeouts h.
Proof.
  destruct (fetchProgress_cases q h) as [[_ Hf]|[_ Hf]]; rewrite Hf;
    repeat split; reflexivity.
Qed.

Lemma same_setAgentProgress v h :
  cleanup (setAgentProgress v h) = cleanup h /\
  channelRef (setAgentProgress v h) = channelRef h /\
  mounted (setAgentProgress v h) = mounted h /\
  intervals (setAgentProgress v h) = intervals h /\
  timeouts (setAgentProgress v h) = timeouts h /\
  agentProgress (setAgentProgress v h) = (if mounted h then v else agentProgress h).
Proof.
  unfold setAgentProgress. destruct (mounted h) eqn:E; simpl; rewrite ?E;
    repeat split; reflexivity.
Qed.

(** What the continuation of [fetchProgress] leaves alone, and the only
    write it makes. *)
Lemma same_resume DateValue res h :
  let h' := fst (fetchProgress_resume DateValue res h) in
  cleanup h' = cleanup h /\
  channelRef h' = channelRef h /\
  mounted h' = mounted h /\
  intervals h' = intervals h /\
  timeouts h' = timeouts h /\
  (agentProgress h' = agentProgress h \/
   exists data, mounted h = true /\
                agentProgress h' = mappedProgress DateValue data).
Proof.
  unfold fetchProgress_resume, fetchProgress_try.
  destruct res as [[data|] [err|]|reason]; simpl; auto 10.
  destruct (same_setAgentProgress (mappedProgress DateValue data) h)
    as (H1 & H2 & H3 & H4 & H5 & H6).
  rewrite H1, H2, H3, H4, H5, H6. repeat split.
  destruct (mounted h); eauto.
Qed.

Lemma step_settle DateValue h req res q :
  find_request req (inflight h) = Some q ->
  step DateValue h (Settle req res) =
  fst (fetchProgress_resume DateValue res
         (set_inflight (remove_request req (inflight h)) h)).
Proof.
  intros Hq. unfold step. rewrite Hq.
  pose proof (resume_normal DateValue res
                (set_inflight (remove_request req (inflight h)) h)) as Hn.
  destruct (fetchProgress_resume DateValue res
              (set_inflight (remove_request req (inflight h)) h)) as [h' k].
  simpl in *. now subst k.
Qed.

Lemma effect_state q h :
  agentProgress (effect q h) = agentProgress h \/
  agentProgress (effect q h) = [].
Proof.
  assert (Hs : agentProgress (setAgentProgress [] h) = agentProgress h \/
               agentProgress (setAgentProgress [] h) = []).
  { destruct (same_setAgentProgress [] h) as (_ & _ & _ & _ & _ & H).
    rewrite H. destruct (mounted h); auto. }
  unfold effect. destruct q as [q|]; auto.
  destruct (String.eqb q ""); auto. left.
  pose proof (quiet_drop_channel h) as (_ & _ & Ha & _).
  destruct (same_fetchProgress q (drop_channel h)) as (Hf & _).
  unfold start_polling, open_channel. simpl. congruence.
Qed.

(** The continuation of [fetchProgress] writes the state only with the
    aggregation of the rows it was answered with. *)
Lemma resume_state DateValue res h :
  agentProgress (fst (fetchProgress_resume DateValue res h)) = agentProgress h \/
  exists data,
    res = rows data /\
    agentProgress (fst (fetchProgress_resume DateValue res h)) =
    mappedProgress DateValue data.
Proof.
  unfold fetchProgress_resume, fetchProgress_try.
  destruct res as [[data|] [err|]|reason]; simpl; auto.
  destruct (same_setAgentProgress (mappedProgress DateValue data) h)
    as (_ & _ & _ & _ & _ & H).
  rewrite H. destruct (mounted h); [right|left; reflexivity].
  exists data. split; reflexivity.
Qed.

(** Every step leaves the state as it is, clears it, or is the settling of
    an awaited request with rows, whose aggregation it writes. *)
Lemma step_state DateValue h e :
  agentProgress (step DateValue h e) = agentProgress h \/
  agentProgress (step DateValue h e) = [] \/
  exists req q data,
    e = Settle req (rows data) /\
    find_request req (inflight h) = Some q /\
    agentProgress (step DateValue h e) = mappedProgress DateValue data.
Proof.
  destruct e.
  - simpl. destruct (negb (mounted h)); auto.
    destruct (same_deps (deps h) queryId); auto.
    pose proof (quiet_run_cleanup h) as (_ & _ & Ha & _).
    destruct (effect_state queryId (run_cleanup h)) as [H|H];
      simpl; rewrite H; auto.
  - simpl. destruct (negb (mounted h)); auto.
    pose proof (quiet_run_cleanup h) as (_ & _ & Ha & _). simpl. auto.
  - simpl. auto.
  - simpl. destruct (channelRef h); auto.
  - simpl. destruct (channelRef h); auto. destruct error; auto.
  - simpl. destruct (nth_error (timeouts h) i) as [[due q]|]; auto.
    destruct (due <=? clock h); auto.
    destruct (same_fetchProgress q
                (set_timeouts (remove_nth i (timeouts h)) h)) as (H & _).
    rewrite H. auto.
  - simpl. destruct (find_interval iv (intervals h)) as [x|]; auto.
    destruct (iv_due x <=? clock h); auto.
    destruct (same_fetchProgress (iv_query x)
                (set_intervals
                   (rearm_interval iv (clock h + 3000) (intervals h)) h))
      as (H & _).
    rewrite H. auto.
  - destruct (find_request req (inflight h)) as [q|] eqn:F;
      [|simpl; rewrite F; auto].
    rewrite (step_settle DateValue h req res q F).
    destruct (resume_state DateValue res
                (set_inflight (remove_request req (inflight h)) h))
      as [H|(data & Hres & H)].
    + left. exact H.
    + right. right. exists req, q, data. subst res. auto.
Qed.

(** X11.  In every state the hook reaches, what it returns is empty or the
    aggregation of one single answer of the store: the rows with which one
    request of the run, awaited at that moment, was settled.  It is never a
    mix of two answers, and it never has two elements for the same agent. *)
Theorem state_is_one_answer (DateValue : string -> TimeValue) (t : Z)
    (evs : list Event) :
  (agentProgress (run DateValue (init t) evs) = [] \/
   exists evs1 evs2 req q data,
     evs = evs1 ++ Settle req (rows data) :: evs2 /\
     find_request req (inflight (run DateValue (init t) evs1)) = Some q /\
     agentProgress (run DateValue (init t) evs) =
     mappedProgress DateValue data) /\
  NoDup (map name (agentProgress (run DateValue (init t) evs))).
Proof.
  assert (H : agentProgress (run DateValue (init t) evs) = [] \/
              exists evs1 evs2 req q data,
                evs = evs1 ++ Settle req (rows data) :: evs2 /\
                find_request req (inflight (run DateValue (init t) evs1)) =
                Some q /\
                agentProgress (run DateValue (init t) evs) =
                mappedProgress DateValue data).
  { induction evs as [|e evs IH] using rev_ind; [left; reflexivity|].
    rewrite run_app.
    change (run DateValue (run DateValue (init t) evs) [e])
      with (step DateValue (run DateValue (init t) evs) e).
    destruct (step_state DateValue (run DateValue (init t) evs) e)
      as [Hs|[Hs|(req & q & data & He & Hf & Hs)]].
    - rewrite Hs. destruct IH as [IH|(evs1 & evs2 & req & q & data & E & F & A)];
        [left; exact IH|right].
      exists evs1, (evs2 ++ [e]), req, q, data. repeat split; auto.
      rewrite E, <- app_assoc. reflexivity.
    - left. exact Hs.
    - right. exists evs, [], req, q, data. subst e. auto. }
  split; [exact H|].
  destruct H as [H|(evs1 & evs2 & req & q & data & _ & _ & H)]; rewrite H.
  - constructor.
  - rewrite mapped_names. apply latest_NoDup.
Qed.

(** *** The refs in every state *)

Lemma tidy_init t : tidy (init t).
Proof. unfold tidy, poll_ok. simpl. repeat split; auto; discriminate. Qed.

Lemma refs_run_cleanup h :
  tidy h ->
  cleanup (run_cleanup h) = None /\
  channelRef (run_cleanup h) = None /\
  intervals (run_cleanup h) = [] /\
  mounted (run_cleanup h) = mounted h.
Proof.
  intros (Hp & Hc & _).
  destruct (poll_ok_run_cleanup h Hp) as [H1 H2].
  pose proof (quiet_run_cleanup h) as (_ & _ & _ & Hm & _).
  repeat split; auto.
  unfold run_cleanup, effect_cleanup, drop_channel.
  destruct (cleanup h) as [iv|].
  - destruct (channelRef h) eqn:E; simpl; auto.
  - apply Hc. reflexivity.
Qed.

Lemma tidy_refs h h' :
  cleanup h' = cleanup h -> channelRef h' = channelRef h ->
  mounted h' = mounted h -> intervals h' = intervals h ->
  tidy h -> tidy h'.
Proof.
  unfold tidy, poll_ok. intros Hc Hch Hm Hi. now rewrite Hc, Hch, Hm, Hi.
Qed.

Lemma tidy_step DateValue h e : tidy h -> tidy (step DateValue h e).
Proof.
  intros H. pose proof H as (Hp & Hc & Hm).
  destruct e.
  - simpl. destruct (negb (mounted h)) eqn:M; auto.
    destruct (same_deps (deps h) queryId); auto.
    apply negb_false_iff in M.
    destruct (refs_run_cleanup h H) as (R1 & R2 & R3 & R4).
    split; [apply (poll_ok_step DateValue h (Render queryId)) in Hp;
            simpl in Hp; rewrite M in Hp; simpl in Hp|].
    + destruct (same_deps (deps h) queryId) eqn:D; [|exact Hp].
      eapply poll_ok_same;
        [| |apply (poll_ok_effect queryId _ R1 R3)]; reflexivity.
    + assert (Hs : forall v,
                cleanup (setAgentProgress v (run_cleanup h)) = None /\
                channelRef (setAgentProgress v (run_cleanup h)) = None /\
                mounted (setAgentProgress v (run_cleanup h)) = true).
      { intros v.
        destruct (same_setAgentProgress v (run_cleanup h))
          as (S1 & S2 & S3 & _).
        rewrite S1, S2, S3. repeat split; congruence. }
      unfold effect.
      destruct queryId as [q|];
        [destruct (String.eqb q "")|];
        try (destruct (Hs []) as (S1 & S2 & S3);
             cbn [cleanup channelRef mounted set_deps];
             rewrite S1, S2, S3; repeat split; auto; discriminate).
      destruct (same_fetchProgress q (drop_channel (run_cleanup h)))
        as (_ & _ & _ & F4 & _).
      pose proof (quiet_drop_channel (run_cleanup h)) as (_ & _ & _ & D4 & _).
      unfold start_polling, open_channel.
      cbn [cleanup channelRef mounted set_deps set_cleanup emit set_intervals
             set_fresh set_channelRef].
      rewrite F4, D4, R4, M. repeat split; discriminate.
  - simpl. destruct (negb (mounted h)) eqn:M; auto.
    destruct (refs_run_cleanup h H) as (R1 & R2 & R3 & R4).
    unfold tidy, poll_ok. cbn [cleanup channelRef mounted intervals set_mounted].
    rewrite R1, R2, R3. repeat split; auto.
  - exact H.
  - simpl. destruct (channelRef h) eqn:E; [exact H|exact H].
  - simpl. destruct (channelRef h) eqn:E; [|exact H].
    destruct error; exact H.
  - simpl. destruct (nth_error (timeouts h) i) as [[due q]|]; auto.
    destruct (due <=? clock h); auto.
    destruct (same_fetchProgress q
                (set_timeouts (remove_nth i (timeouts h)) h))
      as (_ & F1 & F2 & F3 & F4 & _).
    eapply tidy_refs; [exact F1|exact F2|exact F3|exact F4|exact H].
  - apply (poll_ok_step DateValue h (IntervalFires iv)) in Hp.
    split; [exact Hp|].
    simpl. destruct (find_interval iv (intervals h)) as [x|]; auto.
    destruct (iv_due x <=? clock h); auto.
    destruct (same_fetchProgress (iv_query x)
                (set_intervals
                   (rearm_interval iv (clock h + 3000) (intervals h)) h))
      as (_ & F1 & F2 & F3 & _).
    rewrite F1, F2, F3. simpl. auto.
  - destruct (find_request req (inflight h)) as [q|] eqn:F;
      [|simpl; rewrite F; auto].
    rewrite (step_settle DateValue h req res q F).
    destruct (same_resume DateValue res
                (set_inflight (remove_request req (inflight h)) h))
      as (S1 & S2 & S3 & S4 & _).
    eapply tidy_refs; [exact S1|exact S2|exact S3|exact S4|exact H].
Qed.

Lemma tidy_run DateValue t evs : tidy (run DateValue (init t) evs).
Proof.
  induction evs as [|e evs IH] using rev_ind; [apply tidy_init|].
  rewrite run_app. now apply tidy_step.
Qed.

(** *** The closed hook *)

Lemma run_cleanup_none h : cleanup h = None -> run_cleanup h = h.
Proof. unfold run_cleanup. now intros ->. Qed.

Lemma tidy_closed h : tidy h -> channelRef h = None -> closed h.
Proof.
  intros (Hp & Hc & _) Hn. split; auto.
  apply Hc in Hn. unfold poll_ok in Hp. now rewrite Hn in Hp.
Qed.

(** A step of a closed hook that opens nothing: the hook stays closed, and a
    read of the store costs a pending timer. *)
Ltac stays_closed :=
  unfold closed; repeat split; auto; intros; congruence.

Lemma closed_step DateValue h e :
  tidy h -> closed h ->
  mounted h = false \/ opens_nothing e ->
  closed (step DateValue h e) /\
  (List.length (reads (log (step DateValue h e)))
   + List.length (timeouts (step DateValue h e)) <=
   List.length (reads (log h)) + List.length (timeouts h))%nat /\
  (mounted h = false ->
   mounted (step DateValue h e) = false /\
   agentProgress (step DateValue h e) = agentProgress h).
Proof.
  intros Ht [Hch Hiv] Hor.
  assert (Hcl : cleanup h = None)
    by (destruct Ht as (_ & Hcc & _); apply Hcc; exact Hch).
  destruct e.
  - simpl. destruct (mounted h) eqn:M; simpl; rewrite ?M; [|stays_closed].
    destruct (same_deps (deps h) queryId); [stays_closed|].
    destruct Hor as [Hor|Hor]; [discriminate|]. simpl in Hor.
    rewrite (run_cleanup_none h Hcl).
    assert (He : effect queryId h = setAgentProgress [] h).
    { unfold effect. destruct queryId as [q|]; auto.
      simpl in Hor. now rewrite Hor. }
    rewrite He.
    destruct (same_setAgentProgress [] h) as (_ & S2 & _ & S4 & S5 & _).
    pose proof (calm_setAgentProgress [] h) as (_ & _ & Hr).
    unfold closed. cbn [channelRef intervals log timeouts set_deps].
    rewrite S2, S4, S5, Hr. repeat split; auto; discriminate.
  - simpl. destruct (mounted h) eqn:M; simpl; rewrite ?M; [|stays_closed].
    rewrite (run_cleanup_none h Hcl). unfold closed. simpl.
    repeat split; auto; discriminate.
  - simpl. unfold closed. simpl. auto.
  - simpl. rewrite Hch. stays_closed.
  - simpl. rewrite Hch. stays_closed.
  - simpl. destruct (nth_error (timeouts h) i) as [[due q]|] eqn:N;
      [|stays_closed].
    destruct (due <=? clock h); [|stays_closed].
    set (h1 := set_timeouts (remove_nth i (timeouts h)) h).
    destruct (same_fetchProgress q h1) as (F0 & _ & F2 & F3 & F4 & F5).
    pose proof (fetchProgress_reading q h1) as (_ & Hr).
    pose proof (remove_nth_Some _ _ _ N) as Hlen.
    unfold closed. rewrite F0, F2, F3, F4, F5. simpl.
    repeat split; auto.
    destruct Hr as [[Hr _]|[Hr _]]; rewrite Hr; simpl;
      rewrite ?length_app; simpl; lia.
  - simpl. rewrite Hiv. simpl. stays_closed.
  - destruct (find_request req (inflight h)) as [q|] eqn:F;
      [|simpl; rewrite F; stays_closed].
    rewrite (step_settle DateValue h req res q F).
    set (h1 := set_inflight (remove_request req (inflight h)) h).
    destruct (same_resume DateValue res h1) as (_ & S2 & S3 & S4 & S5 & S6).
    pose proof (resume_calm DateValue res h1) as (_ & _ & Hr).
    unfold closed. rewrite S2, S3, S4, S5, Hr. simpl.
    repeat split; auto.
    destruct S6 as [S6|(data & Hm & _)]; [exact S6|].
    simpl in Hm. congruence.
Qed.

Lemma closed_run DateValue evs : forall h,
  tidy h -> closed h ->
  mounted h = false \/ Forall opens_nothing evs ->
  closed (run DateValue h evs) /\
  (List.length (reads (log (run DateValue h evs)))
   + List.length (timeouts (run DateValue h evs)) <=
   List.length (reads (log h)) + List.length (timeouts h))%nat /\
  (mounted h = false ->
   agentProgress (run DateValue h evs) = agentProgress h).
Proof.
  induction evs as [|e evs IH]; intros h Ht Hc Hor; [simpl; auto|].
  assert (Hor1 : mounted h = false \/ opens_nothing e).
  { destruct Hor as [Hor|Hor]; auto. inversion Hor. auto. }
  destruct (closed_step DateValue h e Ht Hc Hor1) as (C1 & C2 & C3).
  assert (Hor2 : mounted (step DateValue h e) = false \/
                 Forall opens_nothing evs).
  { destruct Hor as [Hor|Hor]; [left; now apply C3|].
    inversion Hor. auto. }
  destruct (IH _ (tidy_step DateValue h e Ht) C1 Hor2) as (I1 & I2 & I3).
  change (run DateValue h (e :: evs))
    with (run DateValue (step DateValue h e) evs).
  repeat split; [apply I1|apply I1|lia|].
  intros Hm. destruct (C3 Hm) as [Hm' Ha]. rewrite (I3 Hm'). exact Ha.
Qed.

(** X12.  Once the hook holds no channel (after a render without a query,
    or before the first query), and as long as no render brings a query, it
    stays closed (no channel, no polling interval), and it reads the store at
    most once for every 100ms timer that was still pending. *)
Theorem closed_hook_drains_timers (DateValue : string -> TimeValue) (t : Z)
    (evs evs' : list Event) :
  channelRef (run DateValue (init t) evs) = None ->
  Forall opens_nothing evs' ->
  closed (run DateValue (run DateValue (init t) evs) evs') /\
  (List.length
     (reads (log (run DateValue (run DateValue (init t) evs) evs'))) <=
   List.length (reads (log (run DateValue (init t) evs)))
   + List.length (timeouts (run DateValue (init t) evs)))%nat.
Proof.
  intros Hn Hf.
  pose proof (tidy_run DateValue t evs) as Ht.
  destruct (closed_run DateValue evs' _ Ht (tidy_closed _ Ht Hn) (or_intror Hf))
    as (C1 & C2 & _).
  split; [exact C1|lia].
Qed.

(** X13.  After the unmount of its owner the hook holds no channel and no
    interval, and whatever happens next (timers that fire, fetches that
    settle, notifications, renders) it never opens one again, its state
    never changes, and it reads the store at most once for every timer that
    was pending at the unmount. *)
Theorem unmounted_hook_is_frozen (DateValue : string -> TimeValue) (t : Z)
    (evs evs' : list Event) :
  closed (run DateValue (init t) (evs ++ [Unmount])) /\
  closed (run DateValue (run DateValue (init t) (evs ++ [Unmount])) evs') /\
  agentProgress (run DateValue (run DateValue (init t) (evs ++ [Unmount])) evs')
  = agentProgress (run DateValue (init t) evs) /\
  (List.length
     (reads (log (run DateValue
                    (run DateValue (init t) (evs ++ [Unmount])) evs'))) <=
   List.length (reads (log (run DateValue (init t) evs)))
   + List.length (timeouts (run DateValue (init t) evs)))%nat.
Proof.
  pose proof (tidy_run DateValue t evs) as Ht0.
  pose proof (tidy_run DateValue t (evs ++ [Unmount])) as Ht.
  rewrite run_app in *.
  change (run DateValue (run DateValue (init t) evs) [Unmount])
    with (step DateValue (run DateValue (init t) evs) Unmount) in *.
  set (h0 := run DateValue (init t) evs) in *.
  assert (Hu : mounted (step DateValue h0 Unmount) = false /\
               channelRef (step DateValue h0 Unmount) = None /\
               agentProgress (step DateValue h0 Unmount) = agentProgress h0 /\
               reads (log (step DateValue h0 Unmount)) = reads (log h0) /\
               timeouts (step DateValue h0 Unmount) = timeouts h0).
  { simpl. destruct (mounted h0) eqn:M; simpl.
    - destruct (refs_run_cleanup h0 Ht0) as (_ & R2 & _).
      pose proof (quiet_run_cleanup h0) as ((_ & _ & Hr) & _ & Ha & _ & Hti & _).
      auto.
    - destruct Ht0 as (_ & Hcc & Hmm).
      repeat split; auto. apply Hcc, Hmm, M. }
  destruct Hu as (Hm & Hn & Ha & Hr & Hti).
  pose proof (tidy_closed _ Ht Hn) as Hc.
  destruct (closed_run DateValue evs' _ Ht Hc (or_introl Hm)) as (C1 & C2 & C3).
  split; [exact Hc|]. split; [exact C1|]. split.
  - rewrite (C3 Hm). exact Ha.
  - rewrite Hr, Hti in C2. lia.
Qed.

(** A timer is pending when [queryId] becomes [null]; it fires 600ms later
    and reads the store, once. *)
Lemma closed_hook_drains_timers_witness :
  channelRef closed_with_timer = None /\
  List.length (timeouts closed_with_timer) = 1%nat /\
  reads (log closed_with_timer) = [t0] /\
  (List.length
     (reads (log (run utcTime closed_with_timer
                    [Advance 600; TimeoutFires 0; Render None;
                     IntervalFires 1; Notify agent_progress]))) <= 2)%nat.
Proof.
  split; [reflexivity|]. split; [reflexivity|]. split; [reflexivity|].
  assert (Hf : Forall opens_nothing
                 [Advance 600; TimeoutFires 0; Render None;
                  IntervalFires 1; Notify agent_progress])
    by (repeat constructor).
  destruct (closed_hook_drains_timers utcTime t0
              [Render (Some "q1"); Advance 50; Notify agent_progress;
               Render None]
              [Advance 600; TimeoutFires 0; Render None; IntervalFires 1;
               Notify agent_progress] eq_refl Hf) as (_ & H).
  exact H.
Defined.

(** ** Part III.  Results on the callers *)

Lemma eqb_known (a s : string) : s <> a -> String.eqb a s = false.
Proof. intros H. apply String.eqb_neq. congruence. Qed.

(** The six statuses of a query, or none of them. *)
Lemma status_cases (s : string) :
  s = "waiting" \/ s = "initializing" \/ s = "researching" \/
  s = "analyzing" \/ s = "fact_checking" \/ s = "completed" \/
  (s <> "waiting" /\ s <> "initializing" /\ s <> "researching" /\
   s <> "analyzing" /\ s <> "fact_checking" /\ s <> "completed").
Proof.
  destruct (string_dec s "waiting"); [tauto|].
  destruct (string_dec s "initializing"); [tauto|].
  destruct (string_dec s "researching"); [tauto|].
  destruct (string_dec s "analyzing"); [tauto|].
  destruct (string_dec s "fact_checking"); [tauto|].
  destruct (string_dec s "completed"); tauto.
Qed.

Lemma indexOf_unknown (s : string) :
  s <> "waiting" -> s <> "initializing" -> s <> "researching" ->
  s <> "analyzing" -> s <> "fact_checking" -> s <> "completed" ->
  indexOf Tracker.states s = -1.
Proof.
  intros H1 H2 H3 H4 H5 H6. cbv [indexOf Tracker.states indexOf_from].
  now rewrite !eqb_known by assumption.
Qed.

Lemma indexOf_known (s : string) :
  indexOf Tracker.states s <> -1 <-> In s Tracker.states.
Proof.
  destruct (status_cases s)
    as [->|[->|[->|[->|[->|[->|(H1 & H2 & H3 & H4 & H5 & H6)]]]]]];
    try (split; [intros _; simpl; tauto|intros _; vm_compute; discriminate]).
  rewrite indexOf_unknown by assumption. split; [congruence|].
  simpl. intros [H|[H|[H|[H|[H|[H|[]]]]]]]; congruence.
Qed.

(** The retries of [tryScroll] as the source writes them. *)
Lemma tryScroll_unfold present attempts :
  Dashboard.tryScroll present attempts =
  if present attempts then Some attempts
  else if (attempts <? 15)%nat then Dashboard.tryScroll present (S attempts)
  else None.
Proof.
  unfold Dashboard.tryScroll.
  destruct (attempts <? 15)%nat eqn:E.
  - apply Nat.ltb_lt in E.
    replace (15 - attempts)%nat with (S (15 - S attempts)) by lia.
    reflexivity.
  - apply Nat.ltb_ge in E.
    replace (15 - attempts)%nat with 0%nat by lia. reflexivity.
Qed.

Lemma tryScroll_within_spec budget present : forall attempts,
  match Dashboard.tryScroll_within budget present attempts with
  | Some k =>
      (attempts <= k <= attempts + budget)%nat /\ present k = true /\
      forall j, (attempts <= j < k)%nat -> present j = false
  | None =>
      forall j, (attempts <= j <= attempts + budget)%nat -> present j = false
  end.
Proof.
  induction budget as [|b IH]; intros attempts; simpl.
  - destruct (present attempts) eqn:P.
    + repeat split; auto; try lia; intros j Hj; lia.
    + intros j Hj. assert (j = attempts) by lia. now subst.
  - destruct (present attempts) eqn:P.
    + repeat split; auto; try lia; intros j Hj; lia.
    + specialize (IH (S attempts)).
      destruct (Dashboard.tryScroll_within b present (S attempts)) as [k|].
      * destruct IH as (Hk & Hp & Hb). repeat split; auto; try lia.
        intros j Hj. destruct (Nat.eq_dec j attempts); [now subst|].
        apply Hb. lia.
      * intros j Hj. destruct (Nat.eq_dec j attempts); [now subst|].
        apply IH. lia.
Qed.

(** X14.  [tryScroll()] looks for the carousel item at most 16 times (the
    first call and 15 retries, 200ms apart).  It scrolls at the first look
    that finds the item, and gives up exactly when none of the 16 looks finds
    it. *)
Theorem tryScroll_gives_up_after_16 (present : nat -> bool) :
  match Dashboard.tryScroll present 0 with
  | Some k =>
      (k <= 15)%nat /\ present k = true /\
      forall j, (j < k)%nat -> present j = false
  | None => forall j, (j <= 15)%nat -> present j = false
  end.
Proof.
  unfold Dashboard.tryScroll.
  pose proof (tryScroll_within_spec (15 - 0) present 0%nat) as H.
  destruct (Dashboard.tryScroll_within (15 - 0) present 0) as [k|].
  - destruct H as (Hk & Hp & Hb). repeat split; auto.
    + simpl in Hk. lia.
    + intros j Hj. apply Hb. lia.
  - intros j Hj. apply H. simpl. lia.
Qed.

(** X15.  With [i] the index of [currentStep] in [states] ([-1] when it is
    not one of them), the four steps of the tracker, in their order, are
    shown as [i - 1] completed steps (none below 1, four above 4), then one
    active step when [i] is from 1 to 4, then waiting steps.  So a step is
    active exactly when [currentStep] is one of the four steps; at
    ['completed'] all four are completed; at ['waiting'] and at a status that
    is not in [states] all four are waiting. *)
Theorem step_statuses_shape (currentStep : string) :
  map (Tracker.getStepStatus currentStep) Tracker.steps =
    repeat "completed"
      (Z.to_nat (Z.min 4 (indexOf Tracker.states currentStep - 1)))
    ++ repeat "active"
         (if (1 <=? indexOf Tracker.states currentStep)
             && (indexOf Tracker.states currentStep <=? 4)
          then 1%nat else 0%nat)
    ++ repeat "waiting"
         (Z.to_nat (4 - Z.max 0 (indexOf Tracker.states currentStep))) /\
  (In "active" (map (Tracker.getStepStatus currentStep) Tracker.steps) <->
   In currentStep Tracker.steps) /\
  (currentStep = "completed" ->
   map (Tracker.getStepStatus currentStep) Tracker.steps =
   ["completed"; "completed"; "completed"; "completed"]) /\
  (currentStep = "waiting" \/ ~ In currentStep Tracker.states ->
   map (Tracker.getStepStatus currentStep) Tracker.steps =
   ["waiting"; "waiting"; "waiting"; "waiting"]).
Proof.
  destruct (status_cases currentStep)
    as [->|[->|[->|[->|[->|[->|(H1 & H2 & H3 & H4 & H5 & H6)]]]]]].
  1-6: (split; [reflexivity|]; split; [vm_compute; intuition congruence|];
        split;
        [intros H; first [reflexivity | discriminate H]
        |intros [H|H];
         first [reflexivity | discriminate H
               | exfalso; apply H; simpl; tauto]]).
  assert (Hmap : map (Tracker.getStepStatus currentStep) Tracker.steps =
                 ["waiting"; "waiting"; "waiting"; "waiting"]).
  { unfold Tracker.getStepStatus.
    rewrite indexOf_unknown by assumption. reflexivity. }
  rewrite Hmap, indexOf_unknown by assumption.
  split; [reflexivity|]. split; [|split; auto; intros H; contradiction].
  simpl. intuition congruence.
Qed.

(** X16.  [getOverallProgress()] is a fifth of the way per status: it is
    [20 * i] for the status of index [i] in [states], and [0] for a
    [currentStep] that is not one of them; so it is always between 0 and
    100. *)
Theorem overall_progress_values (currentStep : string) :
  Tracker.getOverallProgress currentStep =
    Number.of_Z (20 * Z.max 0 (indexOf Tracker.states currentStep)) /\
  Floats.PrimFloat.leb (Number.of_Z 0)
    (Tracker.getOverallProgress currentStep) = true /\
  Floats.PrimFloat.leb (Tracker.getOverallProgress currentStep)
    (Number.of_Z 100) = true.
Proof.
  destruct (status_cases currentStep)
    as [->|[->|[->|[->|[->|[->|(H1 & H2 & H3 & H4 & H5 & H6)]]]]]];
    try (vm_compute; repeat split; reflexivity).
  unfold Tracker.getOverallProgress.
  rewrite indexOf_unknown by assumption.
  vm_compute. repeat split; reflexivity.
Qed.

(** *** From the rows to the error card *)

Lemma error_status item :
  ap_status (toAgentProgress item) = "error" <-> status item = Some "error".
Proof.
  unfold toAgentProgress, status_or_waiting. simpl.
  destruct (status item) as [v|].
  - destruct (String.eqb v "") eqn:E.
    + apply String.eqb_eq in E. subst v. split; discriminate.
    + split; congruence.
  - split; discriminate.
Qed.

Lemma or_else_task item d :
  or_else (currentTask (toAgentProgress item)) d = or_else (current_task item) d.
Proof.
  unfold toAgentProgress, task_or_undefined, or_else. simpl.
  destruct (current_task item) as [v|]; auto.
  destruct (String.eqb v "") eqn:E; auto. now rewrite E.
Qed.

Lemma or_else_nonempty x d : d <> "" -> or_else x d <> "".
Proof.
  intros Hd. unfold or_else. destruct x as [v|]; auto.
  destruct (String.eqb v "") eqn:E; auto. now apply String.eqb_neq.
Qed.

Lemma errorAgent_Some agents a :
  errorAgent agents = Some a -> In a agents /\ ap_status a = "error".
Proof.
  unfold errorAgent. intros H. apply find_some in H.
  destruct H as [Hin He]. split; auto. now apply String.eqb_eq.
Qed.

Lemma errorAgent_None agents :
  errorAgent agents = None <-> forall a, In a agents -> ap_status a <> "error".
Proof.
  unfold errorAgent. split.
  - intros H a Hin. apply (find_none _ _ H) in Hin. now apply String.eqb_neq.
  - intros H. destruct (find _ agents) as [a|] eqn:F; auto.
    apply find_some in F. destruct F as [Hin He].
    apply String.eqb_eq in He. exfalso. exact (H a Hin He).
Qed.

(** X17.  From the store to the screen.  The tracker shows the error card
    exactly when the row the hook keeps for some agent has status ['error'],
    whatever the step, ['completed'] included.  The card then names an agent
    whose kept row is in error, with that row's [current_task], or
    ['Unknown error'] when the row has none, so the message is never empty;
    and the dashboard's toast for the same state carries the same agent and
    message. *)
Theorem error_row_shows_error_card (DateValue : string -> TimeValue)
    (data : list DatabaseAgentProgress) (currentStep : string)
    (query : option Tracker.Query) :
  ((exists n item,
      Obj.get (latestProgressByAgent DateValue data) n = Obj.Own item /\
      status item = Some "error") <->
   (exists agent message,
      Tracker.render currentStep query (mappedProgress DateValue data) =
      Tracker.ErrorCard agent message)) /\
  (forall agent message,
     Tracker.render currentStep query (mappedProgress DateValue data) =
     Tracker.ErrorCard agent message ->
     message <> "" /\
     Dashboard.errorToast (mappedProgress DateValue data) =
       Some (Dashboard.mkToast "Agent Error"
               (agent ++ " failed: " ++ message)%string "destructive") /\
     exists item,
       Obj.get (latestProgressByAgent DateValue data) agent = Obj.Own item /\
       status item = Some "error" /\
       message = or_else (current_task item) "Unknown error").
Proof.
  assert (Hkept : forall a, In a (mappedProgress DateValue data) ->
            exists item,
              Obj.get (latestProgressByAgent DateValue data) (name a) =
              Obj.Own item /\ a = toAgentProgress item).
  { intros a Ha. unfold mappedProgress, Obj.values in Ha.
    apply in_map_iff in Ha. destruct Ha as (item & Ha & Hin).
    apply in_map_iff in Hin. destruct Hin as ([k v] & Hv & Hin).
    simpl in Hv. subst v a.
    apply In_own in Hin; [|apply latest_NoDup].
    destruct (latest_member DateValue _ _ _ Hin) as [_ Hk]. subst k.
    apply get_Own in Hin. exists item. auto. }
  unfold Tracker.render, Dashboard.errorToast.
  destruct (errorAgent (mappedProgress DateValue data)) as [a|] eqn:E.
  - destruct (errorAgent_Some _ _ E) as [Hin He].
    destruct (Hkept a Hin) as (item & Hget & Ha).
    assert (Hst : status item = Some "error")
      by (apply error_status; now rewrite <- Ha).
    split.
    + split; eauto.
    + intros agent message H. inversion H. subst agent message.
      split; [apply or_else_nonempty; discriminate|].
      split; [reflexivity|].
      exists item. repeat split; auto.
      rewrite Ha at 1. apply or_else_task.
  - split.
    + split.
      * intros (n & item & Hget & Hst). exfalso.
        rewrite errorAgent_None in E.
        apply (E (toAgentProgress item)).
        -- unfold mappedProgress, Obj.values.
           apply in_map. apply get_Own, own_In in Hget.
           change item with (snd (n, item)). now apply in_map.
        -- now apply error_status.
      * intros (agent & message & H).
        destruct (String.eqb currentStep "completed"); discriminate.
    + intros agent message H.
      destruct (String.eqb currentStep "completed"); discriminate.
Qed.

(** *** The dashboard's tables *)

(** X18.  The three status tables of the dashboard agree with each other and
    with the tracker: a status gets the text ['Unknown'], the file icon and
    the gray badge exactly when it is not one of the tracker's six [states];
    it gets the check icon and the green badge exactly when it is
    ['completed'], which is also exactly when the card's button leads to the
    results page. *)
Theorem dashboard_statuses_agree (status : string) :
  (Dashboard.getStatusText status = "Unknown" <-> ~ In status Tracker.states) /\
  (Dashboard.getStatusIcon status = Dashboard.FileText <->
   ~ In status Tracker.states) /\
  (Dashboard.getStatusColor status = "bg-gray-100 text-gray-800" <->
   ~ In status Tracker.states) /\
  (Dashboard.getStatusIcon status = Dashboard.CheckCircle <->
   status = "completed") /\
  (Dashboard.getStatusColor status = "bg-green-100 text-green-800" <->
   status = "completed") /\
  (forall queryId,
     Dashboard.cardTarget status queryId = ("/results?id=" ++ queryId)%string <->
     status = "completed").
Proof.
  destruct (status_cases status)
    as [->|[->|[->|[->|[->|[->|(H1 & H2 & H3 & H4 & H5 & H6)]]]]]].
  1-5: (repeat split; intros; try discriminate;
        try (exfalso; match goal with
                      | H : ~ In _ _ |- _ => apply H; simpl; tauto
                      end)).
  - repeat split; intros; try reflexivity; try discriminate;
      try (exfalso; match goal with
                    | H : ~ In _ _ |- _ => apply H; simpl; tauto
                    end).
  - unfold Dashboard.getStatusText, Dashboard.getStatusIcon,
      Dashboard.getStatusColor, Dashboard.cardTarget.
    apply String.eqb_neq in H1, H2, H3, H4, H5. pose proof H6 as H6'.
    apply String.eqb_neq in H6. rewrite H1, H2, H3, H4, H5, H6. simpl.
    assert (Hn : ~ In status Tracker.states).
    { simpl. intros [H|[H|[H|[H|[H|[H|[]]]]]]]; symmetry in H;
        try (apply String.eqb_neq in H1, H2, H3, H4, H5); congruence. }
    repeat split; intros; auto; try discriminate; try contradiction.
Qed.
